(** * scripts/update_positioning.py: the substitution engine and its driver

    A shallow embedding of [apply_replacements] and of the driver loop of
    [main], with the properties of the engine (ordered application, skipped
    rules, empty patterns, repeated application) and of the driver (missing
    files, check mode against apply mode, exit status, writes). *)

From Stdlib Require Import NArith ZArith Ascii String List Lia.
From stdpp Require Import base decidable option list gmap.

Open Scope list_scope.

(** ** Python strings

    A Python [str] is a sequence of Unicode code points; a code point is a
    natural number.  [py] reads an ASCII literal. *)

Abbreviation str := (list N).

Definition py (s : string) : str := map N_of_ascii (list_ascii_of_string s).

(** [t.startswith(prefix)] *)
Fixpoint startswith (t prefix : str) {struct prefix} : bool :=
  match prefix, t with
  | [], _ => true
  | _ :: _, [] => false
  | p :: prefix', c :: t' => if N.eqb p c then startswith t' prefix' else false
  end.

(** [sub in t]: [sub] starts at some position of [t]; the empty string
    starts at every position, also of the empty [t]. *)
Fixpoint str_contains (t sub : str) : bool :=
  startswith t sub ||
  match t with
  | [] => false
  | _ :: t' => str_contains t' sub
  end.

(** The scan of [t.replace(old, new)] for a non-empty [old]: left to right,
    at a position where [old] starts, [new] is emitted and the scan resumes
    behind the occurrence ([skip] counts the characters of the occurrence
    still to step over); elsewhere the character is copied. *)
Fixpoint replace_scan (old new : str) (skip : nat) (t : str) : str :=
  match t with
  | [] => []
  | c :: t' =>
      match skip with
      | S k => replace_scan old new k t'
      | O =>
          if startswith t old
          then new ++ replace_scan old new (Nat.pred (length old)) t'
          else c :: replace_scan old new 0 t'
      end
  end.

(** [t.replace(old, new)].  With an empty [old], Python puts [new] before
    every character and after the last one. *)
Definition str_replace (t old new : str) : str :=
  match old with
  | [] => new ++ flat_map (fun c => c :: new) t
  | _ :: _ => replace_scan old new 0 t
  end.

(** [sep.join(parts)] *)
Fixpoint str_join (sep : str) (parts : list str) : str :=
  match parts with
  | [] => []
  | [p] => p
  | p :: ps => p ++ sep ++ str_join sep ps
  end.

(** ** The engine *)

Record Replacement := { old : str; new : str; label : str }.

(** The [for repl in replacements] loop over the two locals [text] and
    [changed_labels]. *)
Fixpoint for_repl (replacements : list Replacement)
    (text : str) (changed_labels : list str) : str * list str :=
  match replacements with
  | [] => (text, changed_labels)
  | repl :: rest =>
      if negb (str_contains text (old repl))
      then for_repl rest text changed_labels
      else for_repl rest (str_replace text (old repl) (new repl))
                    (changed_labels ++ [label repl])
  end.

Definition apply_replacements (text : str) (replacements : list Replacement)
    (file_label : str) : str * list str :=
  for_repl replacements text [].

(** ** The world of the driver: files, console, writes *)

(** What a path that exists holds: a text file (with whether it can be
    opened for writing), or something [read_text] fails on (a directory, a
    file without read permission, bytes that are not UTF-8). *)
Inductive entry :=
  | TextFile (content : str) (writable : bool)
  | Unreadable.

Record world := World {
  files : gmap str entry;        (* path -> what is there *)
  stdout : list str;             (* the lines printed so far *)
  writes : list (str * str)      (* the calls of write_text so far *)
}.

Inductive exn :=
  | ReadFailed (path : str)
  | WriteFailed (path : str).

Inductive outcome (A : Type) :=
  | Returned (a : A)
  | Raised (e : exn).
Arguments Returned {A} a.
Arguments Raised {A} e.

(** A computation reads and changes the world, and returns or raises. *)
Definition M (A : Type) : Type := world -> outcome A * world.

#[export] Instance M_ret : MRet M := fun A a w => (Returned a, w).

#[export] Instance M_bind : MBind M := fun A B f m w =>
  match m w with
  | (Returned a, w') => f a w'
  | (Raised e, w') => (Raised e, w')
  end.

(** The world after a line is printed, and after [data] is stored at
    [path]. *)
Definition emit (line : str) (w : world) : world :=
  {| files := files w; stdout := stdout w ++ [line]; writes := writes w |}.

Definition store (path data : str) (w : world) : world :=
  {| files := <[path := TextFile data true]> (files w);
     stdout := stdout w;
     writes := writes w ++ [(path, data)] |}.

(** The world [w] with the lines [out] printed before its own. *)
Definition after_output (out : list str) (w : world) : world :=
  {| files := files w; stdout := out ++ stdout w; writes := writes w |}.

Definition print (line : str) : M unit := fun w => (Returned tt, emit line w).

Definition path_exists (path : str) : M bool := fun w =>
  (Returned (if files w !! path is Some _ then true else false), w).

Definition read_text (path : str) : M str := fun w =>
  match files w !! path with
  | Some (TextFile content _) => (Returned content, w)
  | _ => (Raised (ReadFailed path), w)
  end.

(** [write_text] replaces the content of a writable text file and creates
    a file that is not there. *)
Definition write_text (path data : str) : M unit := fun w =>
  match files w !! path with
  | Some (TextFile _ false) | Some Unreadable => (Raised (WriteFailed path), w)
  | _ => (Returned tt, store path data w)
  end.

(** ** The driver *)

(** [targets] is a dict: a key is held once, at the place of its first
    insertion, and [targets[k] = v] on a key that is there replaces its
    value.  A target is named by its path below ROOT, which is also what
    the reports print. *)
Abbreviation dict := (list (str * list Replacement)).

Fixpoint dict_set (targets : dict) (k : str) (v : list Replacement) : dict :=
  match targets with
  | [] => [(k, v)]
  | (k', v') :: rest =>
      if decide (k' = k) then (k, v) :: rest else (k', v') :: dict_set rest k v
  end.

Definition add (targets : dict) (rel_path : str) (repls : list Replacement) : dict :=
  dict_set targets rel_path repls.

Definition warn_line (path : str) : str := py "[WARN] Missing: " ++ path.
Definition ok_line (path : str) : str := py "[OK]   " ++ path ++ py " (no changes)".
Definition edit_line (path : str) (changed : list str) : str :=
  py "[EDIT] " ++ path ++ py " -> " ++ str_join (py ", ") changed.
Definition summary_line : str := py "No changes applied.".

(** One turn of [for path, repls in targets.items()]; the result is the
    value of [any_changed] after the turn. *)
Definition loop_body (check : bool) (path : str) (repls : list Replacement)
    (any_changed : bool) : M bool :=
  present ← path_exists path;
  if negb present then
    print (warn_line path);; mret any_changed
  else
    original ← read_text path;
    let '(updated, changed) := apply_replacements original repls path in
    match changed with
    | [] => print (ok_line path);; mret any_changed
    | _ :: _ =>
        print (edit_line path changed);;
        (if negb check then write_text path updated else mret tt);;
        mret true
    end.

Fixpoint for_targets (check : bool) (targets : dict) (any_changed : bool) : M bool :=
  match targets with
  | [] => mret any_changed
  | (path, repls) :: rest =>
      any_changed' ← loop_body check path repls any_changed;
      for_targets check rest any_changed'
  end.

(** [main]: [check] is the --check flag and [table] the arguments of the
    calls of [add], in the order of the calls. *)
Definition targets_of (table : list (str * list Replacement)) : dict :=
  fold_left (fun targets call => add targets (fst call) (snd call)) table [].

Definition main (check : bool) (table : list (str * list Replacement)) : M Z :=
  let targets := targets_of table in
  any_changed ← for_targets check targets false;
  if check then mret 0%Z
  else
    (if negb any_changed then print summary_line else mret tt);;
    mret 0%Z.

(** A run from a file system, nothing printed and nothing written yet. *)
Definition start (fs : gmap str entry) : world :=
  {| files := fs; stdout := []; writes := [] |}.

(** The ways one turn of the loop can go, for the file at [path]: what the
    turn returns or raises and the world it leaves. *)
Inductive Turn (check : bool) (path : str) (repls : list Replacement)
    (any_changed : bool) (w : world) : outcome bool -> world -> Prop :=
  | Turn_missing :
      files w !! path = None ->
      Turn check path repls any_changed w
        (Returned any_changed) (emit (warn_line path) w)
  | Turn_unreadable :
      files w !! path = Some Unreadable ->
      Turn check path repls any_changed w (Raised (ReadFailed path)) w
  | Turn_unchanged content writable :
      files w !! path = Some (TextFile content writable) ->
      snd (apply_replacements content repls path) = [] ->
      Turn check path repls any_changed w
        (Returned any_changed) (emit (ok_line path) w)
  | Turn_preview content writable updated changed :
      files w !! path = Some (TextFile content writable) ->
      apply_replacements content repls path = (updated, changed) ->
      changed <> [] -> check = true ->
      Turn check path repls any_changed w
        (Returned true) (emit (edit_line path changed) w)
  | Turn_written content updated changed :
      files w !! path = Some (TextFile content true) ->
      apply_replacements content repls path = (updated, changed) ->
      changed <> [] -> check = false ->
      Turn check path repls any_changed w
        (Returned true) (store path updated (emit (edit_line path changed) w))
  | Turn_write_failed content updated changed :
      files w !! path = Some (TextFile content false) ->
      apply_replacements content repls path = (updated, changed) ->
      changed <> [] -> check = false ->
      Turn check path repls any_changed w
        (Raised (WriteFailed path)) (emit (edit_line path changed) w).

(** ** The engine over the objects it creates and changes

    [changed_labels] is a list object: the call creates it and appends to
    it, and returns a reference to it.  The state of a call is the world of
    the driver and the list objects that exist, those of earlier calls
    among them.  [text] is a local name bound anew to the immutable string
    [replace] returns, and the rules are read only. *)

Record state := State {
  io : world;                          (* files, console, writes *)
  objects : gmap positive (list str)   (* the list objects, by reference *)
}.

(** [[]]: a new list object, at a reference not in use. *)
Definition new_list (s : state) : positive * state :=
  let ref := fresh (dom (objects s)) in
  (ref, {| io := io s; objects := <[ref := []]> (objects s) |}).

(** [ref.append(x)] *)
Definition list_append (ref : positive) (x : str) (s : state) : state :=
  {| io := io s; objects := alter (fun items => items ++ [x]) ref (objects s) |}.

Fixpoint for_repl_st (replacements : list Replacement) (text : str)
    (changed_labels : positive) (s : state) : str * state :=
  match replacements with
  | [] => (text, s)
  | repl :: rest =>
      if negb (str_contains text (old repl))
      then for_repl_st rest text changed_labels s
      else for_repl_st rest (str_replace text (old repl) (new repl))
             changed_labels (list_append changed_labels (label repl) s)
  end.

Definition apply_replacements_st (text : str) (replacements : list Replacement)
    (file_label : str) (s : state) : (str * positive) * state :=
  let (changed_labels, s1) := new_list s in
  let (text', s2) := for_repl_st replacements text changed_labels s1 in
  ((text', changed_labels), s2).

(** ** The engine as the specification words it

    [Occurs sub t]: [sub] is a literal substring of [t].  [ReplacedAll old
    new t t']: [t'] is [t] with the occurrences of [old] replaced by [new],
    taken from the left, an occurrence starting behind the one before it.
    [Engine]: the rules are tried in order against the text as the rules
    before them left it. *)

Definition Occurs (sub t : str) : Prop :=
  exists before after, t = before ++ sub ++ after.

Inductive ReplacedAll (old new : str) : str -> str -> Prop :=
  | RA_empty t :
      old = [] ->
      ReplacedAll old new t (str_join new ([] :: map (fun c => [c]) t ++ [[]]))
  | RA_none t :
      old <> [] -> ~ Occurs old t ->
      ReplacedAll old new t t
  | RA_first before rest rest' :
      old <> [] ->
      ~ Occurs old (before ++ removelast old) ->
      ReplacedAll old new rest rest' ->
      ReplacedAll old new (before ++ old ++ rest) (before ++ new ++ rest').

Inductive Engine : str -> list Replacement -> str -> list str -> Prop :=
  | Engine_done text :
      Engine text [] text []
  | Engine_match text rule rules text' final labels :
      Occurs (old rule) text ->
      ReplacedAll (old rule) (new rule) text text' ->
      Engine text' rules final labels ->
      Engine text (rule :: rules) final (label rule :: labels)
  | Engine_skip text rule rules final labels :
      ~ Occurs (old rule) text ->
      Engine text rules final labels ->
      Engine text (rule :: rules) final labels.

(** The proviso of the idempotence property: no rule's [new] holds a
    rule's [old] (its own included, which asks more of the rules than
    "another rule's"). *)
Definition no_reintroduction (rules : list Replacement) : Prop :=
  forall r1 r2, In r1 rules -> In r2 rules -> ~ Occurs (old r2) (new r1).

(** [ends_into a b]: a non-empty end of [a] is a beginning of [b]. *)
Fixpoint ends_into (a b : str) : bool :=
  match a with
  | [] => false
  | _ :: a' => startswith b a || ends_into a' b
  end.

(** [clash n o]: the texts [n] and [o] overlap: one is inside the other, or
    a non-empty end of one is a beginning of the other.  An empty text is
    inside every text. *)
Definition clash (n o : str) : bool :=
  str_contains n o || str_contains o n || ends_into n o || ends_into o n.

(** The proviso under which a second pass changes nothing: no rule's [new]
    overlaps a rule's [old], its own included. *)
Definition no_overlap (rules : list Replacement) : Prop :=
  forall r1 r2, In r1 rules -> In r2 rules -> clash (new r1) (old r2) = false.

(** The three forms of a report on a file. *)
Inductive report_line : str -> Prop :=
  | report_edit path changed : changed <> [] -> report_line (edit_line path changed)
  | report_ok path : report_line (ok_line path)
  | report_warn path : report_line (warn_line path).

(** ** A small table and two file systems, for the examples below *)

Definition hello_rule : Replacement :=
  {| old := py "Hello world"; new := py "Goodbye world"; label := py "x:y:z" |}.

Definition sample_table : list (str * list Replacement) :=
  [ (py "en/index.html", [hello_rule]); (py "nl/index.html", [hello_rule]) ].

(** en/index.html is already updated and nl/index.html is missing. *)
Definition fs_updated : gmap str entry :=
  {[ py "en/index.html" := TextFile (py "<p>Goodbye world</p>") true ]}.

(** en/index.html still has the old text and nl/index.html is missing. *)
Definition fs_stale : gmap str entry :=
  {[ py "en/index.html" := TextFile (py "<p>Hello world</p>") true ]}.

(** ** What a run prints and leaves, read off the files it starts from *)

(** The report on a target whose path holds what [fs] says; none when
    [read_text] raises on it. *)
Definition report_of (fs : gmap str entry) (target : str * list Replacement) : option str :=
  match fs !! fst target with
  | None => Some (warn_line (fst target))
  | Some Unreadable => None
  | Some (TextFile content _) =>
      match snd (apply_replacements content (snd target) (fst target)) with
      | [] => Some (ok_line (fst target))
      | (_ :: _) as changed => Some (edit_line (fst target) changed)
      end
  end.

(** What the path of a target holds once the engine's output is stored. *)
Definition updated_entry (repls : list Replacement) (path : str)
    (e : option entry) : option entry :=
  match e with
  | Some (TextFile content writable) =>
      Some (TextFile (fst (apply_replacements content repls path)) writable)
  | _ => e
  end.

(** en/index.html has the old text, nl/index.html cannot be read. *)
Definition fs_unreadable : gmap str entry :=
  {[ py "en/index.html" := TextFile (py "<p>Hello world</p>") true;
     py "nl/index.html" := Unreadable ]}.

(** nl/index.html has the old text and cannot be written. *)
Definition fs_read_only : gmap str entry :=
  {[ py "en/index.html" := TextFile (py "<p>Hello world</p>") true;
     py "nl/index.html" := TextFile (py "<h1>Hello world</h1>") false ]}.

Example scenario_hello :
  apply_replacements (py "<p>Hello world</p>")
    [ {| old := py "Hello world"; new := py "Goodbye world"; label := py "x:y:z" |} ]
    (py "f")
  = (py "<p>Goodbye world</p>", [py "x:y:z"]).
Proof. reflexivity. Qed.

Example scenario_absent :
  apply_replacements (py "<p>Hello world</p>")
    [ {| old := py "Not present"; new := py "..."; label := py "a" |} ]
    (py "f")
  = (py "<p>Hello world</p>", []).
Proof. reflexivity. Qed.

Example replace_overlap : str_replace (py "aaa") (py "aa") (py "b") = py "ba".
Proof. reflexivity. Qed.

Example replace_empty_old : str_replace (py "abc") [] (py "-") = py "-a-b-c-".
Proof. reflexivity. Qed.

Example in_empty_text : str_contains [] [] = true.
Proof. reflexivity. Qed.

Example join_labels : str_join (py ", ") [py "a"; py "b"; py "c"] = py "a, b, c".
Proof. reflexivity. Qed.

(** A second [add] on a path replaces the rules and keeps the place. *)
Example add_twice :
  targets_of [ (py "a", [hello_rule]); (py "b", []); (py "a", []) ]
  = [ (py "a", []); (py "b", []) ].
Proof. reflexivity. Qed.

Example apply_run_on_stale :
  main false sample_table (start fs_stale)
  = (Returned 0%Z,
     {| files := fs_updated;
        stdout := [ py "[EDIT] en/index.html -> x:y:z";
                    py "[WARN] Missing: nl/index.html" ];
        writes := [ (py "en/index.html", py "<p>Goodbye world</p>") ] |}).
Proof. vm_compute. reflexivity. Qed.

Example check_run_on_stale :
  main true sample_table (start fs_stale)
  = (Returned 0%Z,
     {| files := fs_stale;
        stdout := [ py "[EDIT] en/index.html -> x:y:z";
                    py "[WARN] Missing: nl/index.html" ];
        writes := [] |}).
Proof. vm_compute. reflexivity. Qed.

Example apply_run_on_updated :
  main false sample_table (start fs_updated)
  = (Returned 0%Z,
     {| files := fs_updated;
        stdout := [ py "[OK]   en/index.html (no changes)";
                    py "[WARN] Missing: nl/index.html";
                    py "No changes applied." ];
        writes := [] |}).
Proof. vm_compute. reflexivity. Qed.

Example check_run_on_updated :
  main true sample_table (start fs_updated)
  = (Returned 0%Z,
     {| files := fs_updated;
        stdout := [ py "[OK]   en/index.html (no changes)";
                    py "[WARN] Missing: nl/index.html" ];
        writes := [] |}).
Proof. vm_compute. reflexivity. Qed.

(** A file that cannot be written: the apply run raises after its report,
    the check run goes on to the next target. *)
Example apply_run_read_only :
  main false sample_table
    (start {[ py "en/index.html" := TextFile (py "<p>Hello world</p>") false ]})
  = (Raised (WriteFailed (py "en/index.html")),
     {| files := {[ py "en/index.html" := TextFile (py "<p>Hello world</p>") false ]};
        stdout := [ py "[EDIT] en/index.html -> x:y:z" ];
        writes := [] |}).
Proof. vm_compute. reflexivity. Qed.

(** The rule ab -> b, whose second pass changes the text, is outside the
    proviso: the end b of its [old] is the beginning of its [new]. *)
Example ab_b_overlaps : clash (py "b") (py "ab") = true.
Proof. reflexivity. Qed.

Example hello_goodbye_no_overlap : clash (new hello_rule) (old hello_rule) = false.
Proof. reflexivity. Qed.

(** Two calls in a row: the second returns a list of its own, and the list
    the first returned is as the first left it. *)
Example two_calls :
  let s0 := {| io := start fs_stale; objects := ∅ |} in
  let r1 := apply_replacements_st (py "<p>Hello world</p>") [hello_rule] (py "f") s0 in
  let r2 := apply_replacements_st (py "<p>Hello world</p>") [hello_rule] (py "g")
              (snd r1) in
  snd (fst r1) <> snd (fst r2)
  /\ objects (snd r2) !! snd (fst r1) = Some [py "x:y:z"]
  /\ objects (snd r2) !! snd (fst r2) = Some [py "x:y:z"].
Proof. vm_compute. repeat split; discriminate. Qed.

(** ** Substrings *)

Lemma startswith_app (t sub : str) :
  startswith t sub = true <-> exists after, t = sub ++ after.
Proof.
  revert t; induction sub as [|p sub IH]; intros t; simpl.
  - split; [intros _; by exists t | done].
  - destruct t as [|c t].
    + split; [done | intros [after H]; discriminate H].
    + destruct (N.eqb_spec p c) as [->|Hne].
      * rewrite IH. split; intros [after H]; exists after; simpl in *; congruence.
      * split; [intros H; discriminate H | intros [after H]; simpl in H; congruence].
Qed.

Lemma Occurs_cons (sub t : str) (c : N) :
  Occurs sub (c :: t) <-> (exists after, c :: t = sub ++ after) \/ Occurs sub t.
Proof.
  split.
  - intros [[|b before] [after H]]; simpl in H.
    + left; by exists after.
    + right; exists before, after; congruence.
  - intros [[after H] | [before [after H]]].
    + by exists [], after.
    + exists (c :: before), after; simpl; congruence.
Qed.

Lemma Occurs_nil (sub : str) : Occurs sub [] <-> sub = [].
Proof.
  split.
  - intros [before [after H]]. symmetry in H.
    apply app_eq_nil in H as [_ H]. by apply app_eq_nil in H as [H _].
  - intros ->; by exists [], [].
Qed.

Lemma str_contains_Occurs (t sub : str) :
  str_contains t sub = true <-> Occurs sub t.
Proof.
  induction t as [|c t IH]; simpl.
  - rewrite orb_false_r, Occurs_nil. destruct sub; simpl; split; congruence.
  - rewrite orb_true_iff, Occurs_cons, IH, startswith_app. done.
Qed.

Lemma str_contains_not_Occurs (t sub : str) :
  str_contains t sub = false <-> ~ Occurs sub t.
Proof. rewrite <- str_contains_Occurs. destruct (str_contains t sub); split; done || congruence. Qed.

Lemma str_contains_empty (t : str) : str_contains t [] = true.
Proof. destruct t; reflexivity. Qed.

Lemma Occurs_length (sub t : str) : Occurs sub t -> length sub <= length t.
Proof. intros [before [after ->]]. rewrite !length_app. lia. Qed.

Lemma removelast_shorter (s : str) : s <> [] -> length (removelast s) < length s.
Proof.
  intros Hs. destruct (exists_last Hs) as [s' [l ->]].
  rewrite removelast_last, length_app. simpl. lia.
Qed.

(** A string that starts [u ++ sub ++ _] with [u] not empty and also
    starts with [sub] has that occurrence inside [u ++ removelast sub]. *)
Lemma prefix_inside (sub u rest after : str) :
  sub <> [] -> u <> [] ->
  u ++ sub ++ rest = sub ++ after ->
  exists after', u ++ removelast sub = sub ++ after'.
Proof.
  intros Hsub Hu Heq.
  destruct (exists_last Hsub) as [s' [l Hs]].
  assert (Hlen : length sub <= length (u ++ removelast sub)).
  { rewrite Hs, removelast_last, !length_app. simpl.
    destruct u; [done | simpl; lia]. }
  exists (drop (length sub) (u ++ removelast sub)).
  rewrite <- (take_drop (length sub) (u ++ removelast sub)) at 1.
  f_equal.
  assert (Hx : u ++ sub ++ rest = (u ++ removelast sub) ++ l :: rest).
  { rewrite Hs at 1. rewrite Hs, removelast_last, <- !app_assoc. done. }
  rewrite <- (take_app_le _ (l :: rest)) by done.
  rewrite <- Hx, Heq, take_app_length. done.
Qed.

(** ** [str.replace] *)

Lemma replace_scan_skip (old new p rest : str) :
  replace_scan old new (length p) (p ++ rest) = replace_scan old new 0 rest.
Proof. induction p as [|c p IH]; simpl; [done | apply IH]. Qed.

Lemma replace_scan_hit (old new rest : str) :
  old <> [] ->
  replace_scan old new 0 (old ++ rest) = new ++ replace_scan old new 0 rest.
Proof.
  intros Hold. destruct old as [|o old']; [done|].
  assert (Hs : startswith ((o :: old') ++ rest) (o :: old') = true)
    by (apply startswith_app; by exists rest).
  change ((o :: old') ++ rest) with (o :: (old' ++ rest)) in *.
  cbn [replace_scan]. rewrite Hs. f_equal.
  apply replace_scan_skip.
Qed.

Lemma replace_scan_miss (old new t : str) (c : N) :
  startswith (c :: t) old = false ->
  replace_scan old new 0 (c :: t) = c :: replace_scan old new 0 t.
Proof. intros Hs. cbn [replace_scan]. by rewrite Hs. Qed.

Lemma startswith_false (t sub : str) :
  startswith t sub = false <-> ~ exists after, t = sub ++ after.
Proof.
  rewrite <- startswith_app. destruct (startswith t sub); split; done || congruence.
Qed.

Lemma replace_scan_absent (old new t : str) :
  ~ Occurs old t -> replace_scan old new 0 t = t.
Proof.
  induction t as [|c t IH]; intros Hno; [done|].
  rewrite Occurs_cons in Hno.
  rewrite replace_scan_miss, IH; [done | tauto |].
  apply startswith_false. tauto.
Qed.

Lemma replace_scan_first (old new before rest : str) :
  old <> [] ->
  ~ Occurs old (before ++ removelast old) ->
  replace_scan old new 0 (before ++ old ++ rest)
  = before ++ new ++ replace_scan old new 0 rest.
Proof.
  intros Hold. induction before as [|c before IH]; intros Hno.
  - by apply (replace_scan_hit old new rest).
  - change ((c :: before) ++ removelast old)
      with (c :: (before ++ removelast old)) in Hno.
    rewrite Occurs_cons in Hno.
    change ((c :: before) ++ old ++ rest) with (c :: (before ++ old ++ rest)).
    rewrite replace_scan_miss.
    + simpl. f_equal. apply IH. tauto.
    + apply startswith_false. intros [after Heq].
      apply Hno. left.
      by apply (prefix_inside old (c :: before) rest after).
Qed.

Lemma first_occurrence (old t : str) :
  old <> [] -> Occurs old t ->
  exists before rest,
    t = before ++ old ++ rest /\ ~ Occurs old (before ++ removelast old).
Proof.
  intros Hold. induction t as [|c t IH]; intros Hocc.
  - apply Occurs_nil in Hocc. done.
  - destruct (startswith (c :: t) old) eqn:Hs.
    + apply startswith_app in Hs as [rest Hs].
      exists [], rest. split; [done|]. simpl.
      intros H%Occurs_length. pose proof (removelast_shorter old Hold). lia.
    + apply startswith_false in Hs.
      apply Occurs_cons in Hocc as [Hocc|Hocc]; [done|].
      destruct (IH Hocc) as [before [rest [-> Hno]]].
      exists (c :: before), rest. split; [done|].
      change ((c :: before) ++ removelast old)
        with (c :: (before ++ removelast old)).
      rewrite Occurs_cons. intros [[after Heq]|H]; [|done].
      apply Hs. destruct (exists_last Hold) as [s' [l Hl]].
      exists (after ++ l :: rest).
      rewrite (app_assoc old after), <- Heq. simpl. f_equal.
      rewrite <- app_assoc. f_equal.
      rewrite Hl, removelast_last, <- app_assoc. done.
Qed.

Lemma str_join_cons (sep p : str) (ps : list str) :
  ps <> [] -> str_join sep (p :: ps) = p ++ sep ++ str_join sep ps.
Proof. destruct ps; done. Qed.

Lemma str_join_boundaries (new t : str) :
  str_join new ([] :: map (fun c => [c]) t ++ [[]])
  = new ++ flat_map (fun c => c :: new) t.
Proof.
  rewrite str_join_cons by (destruct t; done). simpl. f_equal.
  induction t as [|c t IH]; [done|].
  change (map (fun c => [c]) (c :: t) ++ [[]])
    with ([c] :: (map (fun c => [c]) t ++ [[]])).
  rewrite str_join_cons by (destruct t; done).
  rewrite IH. done.
Qed.

(** [str_replace] is the replacement of the specification. *)
Lemma str_replace_ReplacedAll (t old new : str) :
  ReplacedAll old new t (str_replace t old new).
Proof.
  destruct old as [|o old'] eqn:Eold.
  - unfold str_replace. rewrite <- str_join_boundaries. by constructor.
  - rewrite <- Eold. assert (Hold : old <> []) by (by subst).
    assert (Hr : str_replace t old new = replace_scan old new 0 t) by (by subst).
    rewrite Hr. clear Hr Eold o old'.
    remember (length t) as n eqn:Hn.
    revert t Hn. induction (lt_wf n) as [n _ IH]. intros t ->.
    destruct (str_contains t old) eqn:Hc.
    + apply str_contains_Occurs in Hc.
      destruct (first_occurrence old t Hold Hc) as [before [rest [-> Hno]]].
      rewrite replace_scan_first by done.
      apply RA_first; [done..|].
      eapply IH; [|done]. rewrite !length_app.
      destruct old; [done | simpl; lia].
    + apply str_contains_not_Occurs in Hc.
      rewrite replace_scan_absent by done. by apply RA_none.
Qed.

Lemma ReplacedAll_str_replace (t t' old new : str) :
  ReplacedAll old new t t' -> t' = str_replace t old new.
Proof.
  induction 1 as [t Hold | t Hold Hno | before rest rest' Hold Hno _ IH].
  - subst old. unfold str_replace. apply str_join_boundaries.
  - destruct old; [done|]. unfold str_replace. by rewrite replace_scan_absent.
  - destruct old as [|o old'] eqn:Eold; [done|]. rewrite <- Eold in *.
    assert (Hr : forall u, str_replace u old new = replace_scan old new 0 u)
      by (by subst).
    rewrite Hr in *. rewrite replace_scan_first by (done || by subst).
    by rewrite IH.
Qed.

(** ** The engine *)

Lemma for_repl_app (rules1 rules2 : list Replacement) (text : str) (acc : list str) :
  for_repl (rules1 ++ rules2) text acc
  = for_repl rules2 (fst (for_repl rules1 text acc)) (snd (for_repl rules1 text acc)).
Proof.
  revert text acc. induction rules1 as [|r rules1 IH]; intros text acc; simpl.
  - done.
  - destruct (str_contains text (old r)); simpl; apply IH.
Qed.

Lemma for_repl_acc (rules : list Replacement) (text : str) (acc : list str) :
  for_repl rules text acc
  = (fst (for_repl rules text []), acc ++ snd (for_repl rules text [])).
Proof.
  revert text acc. induction rules as [|r rules IH]; intros text acc; simpl.
  - by rewrite app_nil_r.
  - destruct (str_contains text (old r)); simpl.
    + rewrite (IH _ (acc ++ _)), (IH _ [label r]). simpl.
      by rewrite <- app_assoc.
    + apply IH.
Qed.

Lemma Engine_for_repl (text final : str) (rules : list Replacement) (labels : list str) :
  Engine text rules final labels -> for_repl rules text [] = (final, labels).
Proof.
  induction 1 as [text | text rule rules text' final labels Hocc Hrep _ IH
                 | text rule rules final labels Hno _ IH]; simpl.
  - done.
  - apply str_contains_Occurs in Hocc. rewrite Hocc. simpl.
    apply ReplacedAll_str_replace in Hrep. subst text'.
    rewrite for_repl_acc, IH. done.
  - apply str_contains_not_Occurs in Hno. rewrite Hno. simpl. done.
Qed.

Lemma for_repl_Engine (text : str) (rules : list Replacement) :
  Engine text rules (fst (for_repl rules text [])) (snd (for_repl rules text [])).
Proof.
  revert text. induction rules as [|r rules IH]; intros text; simpl.
  - constructor.
  - destruct (str_contains text (old r)) eqn:Hc; simpl.
    + rewrite for_repl_acc. simpl.
      eapply Engine_match; [by apply str_contains_Occurs | | apply IH].
      apply str_replace_ReplacedAll.
    + apply Engine_skip; [by apply str_contains_not_Occurs | apply IH].
Qed.

(** C1: [apply_replacements] tries the rules in order against the text as
    the rules before left it; a rule whose [old] occurs has every occurrence
    replaced by [new] and its label appended; the pair returned is the text
    after all rules and the labels of the rules that matched, in rule order.
    The pair returned is the one, and the only one, the specification's
    [Engine] describes. *)
Theorem apply_replacements_is_Engine (text : str) (rules : list Replacement) (file_label : str) :
  Engine text rules (fst (apply_replacements text rules file_label))
                    (snd (apply_replacements text rules file_label))
  /\ forall final labels,
       Engine text rules final labels ->
       apply_replacements text rules file_label = (final, labels).
Proof.
  unfold apply_replacements. split.
  - apply for_repl_Engine.
  - intros final labels. apply Engine_for_repl.
Qed.

(** C5: a rule whose [old] does not occur in the text at its turn leaves the
    text and the labels as they were before it, and the run goes on as if
    the rule were not in the list; nothing is raised, the engine returns. *)
Theorem absent_rule_is_skipped (text : str) (before after : list Replacement)
    (rule : Replacement) (file_label : str) :
  ~ Occurs (old rule) (fst (apply_replacements text before file_label)) ->
  apply_replacements text (before ++ [rule]) file_label
  = apply_replacements text before file_label
  /\ apply_replacements text (before ++ rule :: after) file_label
    = apply_replacements text (before ++ after) file_label.
Proof.
  unfold apply_replacements. intros Hno%str_contains_not_Occurs.
  rewrite !for_repl_app. simpl. rewrite Hno. simpl.
  split; [|done]. by destruct (for_repl before text []).
Qed.

Lemma absent_rule_is_skipped_witness :
  ~ Occurs (old {| old := py "Not present"; new := py "..."; label := py "a" |})
      (fst (apply_replacements (py "<p>Hello world</p>") [] (py "f")))
  /\ apply_replacements (py "<p>Hello world</p>")
       ([] ++ [ {| old := py "Not present"; new := py "..."; label := py "a" |} ])
       (py "f")
     = (py "<p>Hello world</p>", []).
Proof.
  assert (H : ~ Occurs (old {| old := py "Not present"; new := py "..."; label := py "a" |})
      (fst (apply_replacements (py "<p>Hello world</p>") [] (py "f")))).
  { apply str_contains_not_Occurs. vm_compute. reflexivity. }
  split; [exact H|].
  exact (proj1 (absent_rule_is_skipped (py "<p>Hello world</p>") [] []
                  {| old := py "Not present"; new := py "..."; label := py "a" |}
                  (py "f") H)).
Defined.

(** C9: a rule with the empty [old] always matches: at its turn its label
    is appended, and the text becomes [new] followed by every character of
    the text with [new] behind it, so [new] stands before the first
    character, between any two, and after the last. *)
Theorem empty_old_matches_everywhere (text : str) (before : list Replacement)
    (rule : Replacement) (file_label : str) :
  old rule = [] ->
  apply_replacements text (before ++ [rule]) file_label
  = (new rule ++ flat_map (fun c => c :: new rule)
                   (fst (apply_replacements text before file_label)),
     snd (apply_replacements text before file_label) ++ [label rule]).
Proof.
  unfold apply_replacements. intros Hold.
  rewrite for_repl_app. simpl. rewrite Hold, str_contains_empty. simpl. done.
Qed.

Lemma empty_old_matches_everywhere_witness :
  apply_replacements (py "abc")
    ([] ++ [ {| old := []; new := py "-"; label := py "dash" |} ]) (py "f")
  = (py "-a-b-c-", [py "dash"]).
Proof.
  exact (empty_old_matches_everywhere (py "abc") []
           {| old := []; new := py "-"; label := py "dash" |} (py "f") eq_refl).
Defined.

(** The loop over the list object [changed_labels]: it returns the text
    of [for_repl], leaves in the object what [for_repl] returns as labels,
    and leaves every other object and the world as they were. *)
Lemma for_repl_st_frame (rules : list Replacement) (text : str)
    (ref : positive) (s : state) (acc : list str) :
  objects s !! ref = Some acc ->
  fst (for_repl_st rules text ref s) = fst (for_repl rules text acc)
  /\ objects (snd (for_repl_st rules text ref s)) !! ref
     = Some (snd (for_repl rules text acc))
  /\ (forall ref', ref' <> ref ->
        objects (snd (for_repl_st rules text ref s)) !! ref' = objects s !! ref')
  /\ io (snd (for_repl_st rules text ref s)) = io s.
Proof.
  revert text s acc. induction rules as [|r rules IH]; intros text s acc Hacc; simpl.
  - done.
  - destruct (str_contains text (old r)); simpl.
    + destruct (IH (str_replace text (old r) (new r))
                  (list_append ref (label r) s) (acc ++ [label r]))
        as (Htext & Hlabels & Hframe & Hio).
      { simpl. by rewrite lookup_alter_eq, Hacc. }
      repeat split; try done.
      intros ref' Hne. rewrite (Hframe ref' Hne). simpl.
      by rewrite lookup_alter_ne.
    + by apply IH.
Qed.

(** C8: [apply_replacements] is pure.  Two calls with the same text and
    the same rules, from any two states and with any two [file_label]s,
    return the same text and lists with the same labels: those of the
    function [apply_replacements].  A call has no effect on what was there
    before it: the list it returns is a new object, every object that
    existed holds what it held (the lists earlier calls returned among
    them), and the files, the console and the writes are as they were. *)
Theorem apply_replacements_pure (text : str) (rules : list Replacement)
    (file_label1 file_label2 : str) (s1 s2 : state) :
  let r1 := apply_replacements_st text rules file_label1 s1 in
  let r2 := apply_replacements_st text rules file_label2 s2 in
  (fst (fst r1) = fst (fst r2)
   /\ objects (snd r1) !! snd (fst r1) = objects (snd r2) !! snd (fst r2))
  /\ fst (fst r1) = fst (apply_replacements text rules file_label1)
  /\ objects (snd r1) !! snd (fst r1)
     = Some (snd (apply_replacements text rules file_label1))
  /\ objects s1 !! snd (fst r1) = None
  /\ (forall ref, is_Some (objects s1 !! ref) ->
        objects (snd r1) !! ref = objects s1 !! ref)
  /\ io (snd r1) = io s1.
Proof.
  assert (H : forall file_label s,
            let r := apply_replacements_st text rules file_label s in
            fst (fst r) = fst (for_repl rules text [])
            /\ objects (snd r) !! snd (fst r) = Some (snd (for_repl rules text []))
            /\ objects s !! snd (fst r) = None
            /\ (forall ref, is_Some (objects s !! ref) ->
                  objects (snd r) !! ref = objects s !! ref)
            /\ io (snd r) = io s).
  { intros file_label s. unfold apply_replacements_st, new_list.
    set (ref := fresh (dom (objects s))).
    assert (Hfresh : objects s !! ref = None)
      by (apply not_elem_of_dom, is_fresh).
    destruct (for_repl_st_frame rules text ref
                {| io := io s; objects := <[ref := []]> (objects s) |} [])
      as (Htext & Hlabels & Hframe & Hio); [apply lookup_insert_eq|].
    destruct (for_repl_st rules text ref
                {| io := io s; objects := <[ref := []]> (objects s) |})
      as [text' s'] eqn:Hrun.
    simpl in *. repeat split; try done.
    intros ref' [items Hsome].
    assert (Hne : ref' <> ref) by congruence.
    rewrite (Hframe ref' Hne). by apply lookup_insert_ne. }
  intros r1 r2. subst r1 r2.
  destruct (H file_label1 s1) as (Ht1 & Hl1 & Hn1 & Hf1 & Hio1).
  destruct (H file_label2 s2) as (Ht2 & Hl2 & _).
  unfold apply_replacements.
  repeat split; try done; congruence.
Qed.

(** C4 (as stated, refuted): the rule ab -> b on the text aab.  The [new]
    of the rule holds no [old], yet the first pass leaves ab, which the
    second pass turns into b: the replacement joins the text around it into
    a new occurrence. *)
Lemma idempotence_counterexample :
  ~ (forall (text : str) (rules : list Replacement) (file_label : str),
       no_reintroduction rules ->
       fst (apply_replacements
              (fst (apply_replacements text rules file_label)) rules file_label)
       = fst (apply_replacements text rules file_label)).
Proof.
  intros H.
  specialize (H (py "aab")
                [ {| old := py "ab"; new := py "b"; label := py "l" |} ] (py "f")).
  assert (Hp : no_reintroduction
                 [ {| old := py "ab"; new := py "b"; label := py "l" |} ]).
  { intros r1 r2 [<-|[]] [<-|[]]. apply str_contains_not_Occurs.
    vm_compute. reflexivity. }
  specialize (H Hp). vm_compute in H. discriminate H.
Qed.

Lemma for_repl_none_fire (rules : list Replacement) (text : str) :
  (forall r, In r rules -> ~ Occurs (old r) text) ->
  for_repl rules text [] = (text, []).
Proof.
  induction rules as [|r rules IH]; intros Hno; simpl; [done|].
  assert (Hr : str_contains text (old r) = false).
  { apply str_contains_not_Occurs, Hno. by left. }
  rewrite Hr. simpl. apply IH. intros r' Hin. apply Hno. by right.
Qed.

(** No label on a pass means that no rule's [old] was in the text. *)
Lemma for_repl_no_label (rules : list Replacement) (text : str) :
  snd (for_repl rules text []) = [] ->
  forall r, In r rules -> ~ Occurs (old r) text.
Proof.
  induction rules as [|r rules IH]; intros Hnil r' Hin; simpl in *; [done|].
  destruct (str_contains text (old r)) eqn:Hc; simpl in Hnil.
  - rewrite for_repl_acc in Hnil. simpl in Hnil. discriminate Hnil.
  - destruct Hin as [<-|Hin]; [by apply str_contains_not_Occurs | by apply IH].
Qed.

(** *** Replacements that leave no [old] behind *)

Lemma ends_into_intro (p s q : str) :
  s <> [] -> ends_into (p ++ s) (s ++ q) = true.
Proof.
  intros Hs. induction p as [|c p IH]; simpl.
  - destruct s as [|c s]; [done|].
    assert (H : startswith ((c :: s) ++ q) (c :: s) = true)
      by (apply startswith_app; by exists q).
    cbn [ends_into]. by rewrite H.
  - rewrite IH. apply orb_true_r.
Qed.

Lemma clash_false (n o : str) :
  clash n o = false ->
  ~ Occurs o n /\ ~ Occurs n o
  /\ (forall p s q, s <> [] -> n = p ++ s -> o = s ++ q -> False)
  /\ (forall p s q, s <> [] -> o = p ++ s -> n = s ++ q -> False).
Proof.
  unfold clash. rewrite !orb_false_iff. intros [[[H1 H2] H3] H4].
  split; [by apply str_contains_not_Occurs|].
  split; [by apply str_contains_not_Occurs|].
  split; intros p s q Hs -> ->; [rewrite ends_into_intro in H3
                                 | rewrite ends_into_intro in H4]; done.
Qed.

(** A text that does not overlap [n] and occurs in [x ++ n ++ y] occurs in
    [x] or in [y]. *)
Lemma Occurs_around (n o x y : str) :
  clash n o = false ->
  Occurs o (x ++ n ++ y) -> Occurs o x \/ Occurs o y.
Proof.
  intros (Hin & Hni & Hno & Hon)%clash_false [a [b Heq]].
  apply app_eq_app in Heq as [l [[-> Heq]|[-> Heq]]].
  - (* the occurrence starts in [x] *)
    apply app_eq_app in Heq as [m [[-> Heq]|[-> Heq]]].
    + destruct m as [|c m].
      * left. exists a, []. by rewrite !app_nil_r.
      * apply app_eq_app in Heq as [j [[Hn _]|[Hm _]]].
        -- by destruct (Hon l (c :: m) j).
        -- destruct Hni. exists l, j. by rewrite Hm.
    + left. by exists a, m.
  - (* the occurrence starts behind [x] *)
    apply app_eq_app in Heq as [m [[-> Heq]|[-> Heq]]].
    + destruct m as [|c m].
      * right. exists [], b. simpl in *. by rewrite Heq.
      * apply app_eq_app in Heq as [j [[Ho _]|[Hm _]]].
        -- by destruct (Hno l (c :: m) j).
        -- destruct Hin. exists l, j. by rewrite Hm.
    + right. by exists m, b.
Qed.

(** A replacement by a [new] that does not overlap [o] brings no [o] into
    the text. *)
Lemma ReplacedAll_keeps_absent (old new o t t' : str) :
  clash new o = false -> old <> [] ->
  ReplacedAll old new t t' -> Occurs o t' -> Occurs o t.
Proof.
  intros Hclash Hold.
  induction 1 as [t Hnil | t _ Hno | before rest rest' _ Hno _ IH]; [done | done |].
  intros [[a [b ->]]|Hocc]%(Occurs_around _ _ _ _ Hclash).
  - exists a, (b ++ old ++ rest). by rewrite <- !app_assoc.
  - destruct (IH Hocc) as [a [b ->]].
    exists (before ++ old ++ a), b. by rewrite <- !app_assoc.
Qed.

(** A replacement by a [new] that does not overlap [old] leaves no [old]. *)
Lemma ReplacedAll_removes_old (old new t t' : str) :
  clash new old = false ->
  ReplacedAll old new t t' -> ~ Occurs old t'.
Proof.
  intros Hclash.
  induction 1 as [t Hnil | t _ Hno | before rest rest' _ Hno _ IH].
  - apply clash_false in Hclash as [Hin _]. destruct Hin. subst old. by exists [], new.
  - done.
  - intros [[a [b ->]]|Hocc]%(Occurs_around _ _ _ _ Hclash); [|done].
    apply Hno. exists a, (b ++ removelast old). by rewrite <- !app_assoc.
Qed.

(** Under the proviso, the text the loop returns holds the [old] of no
    rule: not of the rules behind it ([done]), whose [old]s the text did not
    hold, and not of the rules it ran. *)
Lemma for_repl_leaves_no_old (all : list Replacement) :
  no_overlap all ->
  forall (rules done : list Replacement) (text : str),
    (forall r, In r done -> In r all) ->
    (forall r, In r rules -> In r all) ->
    (forall r, In r done -> ~ Occurs (old r) text) ->
    forall r, In r (done ++ rules) ->
      ~ Occurs (old r) (fst (for_repl rules text [])).
Proof.
  intros Hall. induction rules as [|rule rules IH];
    intros done text Hdone Hrules Hclean r Hin.
  - rewrite app_nil_r in Hin. by apply Hclean.
  - assert (Hrule : In rule all) by (apply Hrules; by left).
    assert (Hin' : In r ((done ++ [rule]) ++ rules))
      by (by rewrite <- app_assoc).
    assert (Hdone' : forall r0, In r0 (done ++ [rule]) -> In r0 all).
    { intros r0 [H|[<-|[]]]%in_app_iff; [by apply Hdone | done]. }
    assert (Hrules' : forall r0, In r0 rules -> In r0 all)
      by (intros r0 H; apply Hrules; by right).
    simpl. destruct (str_contains text (old rule)) eqn:Hc; simpl.
    + rewrite for_repl_acc. simpl.
      apply (IH (done ++ [rule])); try done.
      pose proof (str_replace_ReplacedAll text (old rule) (new rule)) as Hrep.
      intros r0 [H|[<-|[]]]%in_app_iff.
      * intros Hocc. apply (Hclean r0 H).
        refine (ReplacedAll_keeps_absent (old rule) (new rule) (old r0) text _
                  (Hall rule r0 Hrule (Hdone r0 H)) _ Hrep Hocc).
        intros Hnil. pose proof (Hall rule rule Hrule Hrule) as Hown.
        apply clash_false in Hown as [Hno _]. apply Hno.
        rewrite Hnil. by exists [], (new rule).
      * exact (ReplacedAll_removes_old _ _ _ _ (Hall rule rule Hrule Hrule) Hrep).
    + apply (IH (done ++ [rule])); try done.
      intros r0 [H|[<-|[]]]%in_app_iff; [by apply Hclean|].
      by apply str_contains_not_Occurs.
Qed.

(** C4 (amended): when no rule's [new] overlaps a rule's [old] (neither is
    inside the other and no non-empty end of one is a beginning of the
    other; a rule's own [old] and [new] included), a second pass over the
    text the first pass returns, with the same rules, returns that text as
    it is and no label: the text and the labels after two passes are those
    after one. *)
Theorem idempotent_without_overlap (text : str) (rules : list Replacement)
    (file_label : str) :
  no_overlap rules ->
  apply_replacements (fst (apply_replacements text rules file_label))
    rules file_label
  = (fst (apply_replacements text rules file_label), [])
  /\ (fst (apply_replacements
             (fst (apply_replacements text rules file_label)) rules file_label),
      snd (apply_replacements text rules file_label)
      ++ snd (apply_replacements
                (fst (apply_replacements text rules file_label)) rules file_label))
     = apply_replacements text rules file_label.
Proof.
  intros Hrules.
  assert (H : apply_replacements (fst (apply_replacements text rules file_label))
                rules file_label
              = (fst (apply_replacements text rules file_label), [])).
  { unfold apply_replacements. apply for_repl_none_fire. intros r Hin.
    by apply (for_repl_leaves_no_old rules Hrules rules [] text). }
  split; [exact H|].
  rewrite H. simpl. rewrite app_nil_r.
  by destruct (apply_replacements text rules file_label).
Qed.

Lemma idempotent_without_overlap_witness :
  no_overlap [ hello_rule;
               {| old := py "<p>"; new := py "<div>"; label := py "p" |} ]
  /\ apply_replacements (py "<div>Goodbye world</p>")
       [ hello_rule; {| old := py "<p>"; new := py "<div>"; label := py "p" |} ]
       (py "f")
     = (py "<div>Goodbye world</p>", []).
Proof.
  assert (Hrules : no_overlap
            [ hello_rule;
              {| old := py "<p>"; new := py "<div>"; label := py "p" |} ]).
  { intros r1 r2 [<-|[<-|[]]] [<-|[<-|[]]]; vm_compute; reflexivity. }
  split; [exact Hrules|].
  exact (proj1 (idempotent_without_overlap (py "<p>Hello world</p>")
                  [ hello_rule;
                    {| old := py "<p>"; new := py "<div>"; label := py "p" |} ]
                  (py "f") Hrules)).
Defined.

(** ** The driver: one turn, and the loop *)

Lemma loop_body_Turn (check : bool) (path : str) (repls : list Replacement)
    (any_changed : bool) (w : world) :
  Turn check path repls any_changed w
    (fst (loop_body check path repls any_changed w))
    (snd (loop_body check path repls any_changed w)).
Proof.
  unfold loop_body, mbind, M_bind, mret, M_ret, path_exists, read_text, print.
  destruct (files w !! path) as [[content writable|]|] eqn:Hf; simpl.
  - rewrite Hf.
    destruct (apply_replacements content repls path) as [updated changed] eqn:Ha.
    destruct changed as [|l changed]; simpl.
    + eapply Turn_unchanged; [done | by rewrite Ha].
    + destruct check; simpl.
      * by eapply Turn_preview.
      * unfold write_text. simpl. rewrite Hf.
        destruct writable; simpl.
        -- by eapply Turn_written.
        -- by eapply Turn_write_failed.
  - rewrite Hf. by apply Turn_unreadable.
  - by apply Turn_missing.
Qed.

(** [Turn] holds of nothing else: it is the graph of [loop_body]. *)
Lemma Turn_loop_body (check : bool) (path : str) (repls : list Replacement)
    (any_changed : bool) (w w' : world) (r : outcome bool) :
  Turn check path repls any_changed w r w' ->
  loop_body check path repls any_changed w = (r, w').
Proof.
  unfold loop_body, mbind, M_bind, mret, M_ret, path_exists, read_text, print.
  intros [Hf | Hf | content writable Hf Ha
         | content writable updated changed Hf Ha Hne ->
         | content updated changed Hf Ha Hne ->
         | content updated changed Hf Ha Hne ->]; simpl; rewrite Hf; simpl;
    rewrite ?Hf; try done.
  - destruct (apply_replacements content repls path) as [updated changed].
    simpl in Ha. by subst changed.
  - rewrite Ha. by destruct changed.
  - rewrite Ha. destruct changed; [done|]. simpl.
    unfold write_text. simpl. by rewrite Hf.
  - rewrite Ha. destruct changed; [done|]. simpl.
    unfold write_text. simpl. by rewrite Hf.
Qed.

Lemma for_targets_cons (check : bool) (path : str) (repls : list Replacement)
    (rest : dict) (any_changed : bool) (w : world) :
  for_targets check ((path, repls) :: rest) any_changed w
  = match loop_body check path repls any_changed w with
    | (Returned any_changed', w') => for_targets check rest any_changed' w'
    | (Raised e, w') => (Raised e, w')
    end.
Proof. reflexivity. Qed.

Lemma for_targets_app (check : bool) (targets1 targets2 : dict)
    (any_changed : bool) (w : world) :
  for_targets check (targets1 ++ targets2) any_changed w
  = match for_targets check targets1 any_changed w with
    | (Returned any_changed', w') => for_targets check targets2 any_changed' w'
    | (Raised e, w') => (Raised e, w')
    end.
Proof.
  revert any_changed w.
  induction targets1 as [|[path repls] targets1 IH]; intros any_changed w.
  - reflexivity.
  - change (((path, repls) :: targets1) ++ targets2)
      with ((path, repls) :: (targets1 ++ targets2)).
    rewrite !for_targets_cons.
    destruct (loop_body check path repls any_changed w) as [[ac'|e] w']; [apply IH | done].
Qed.

(** ** The table: a dict holds a key once *)

Lemma dict_set_keys (targets : dict) (k : str) (v : list Replacement) (p : str) :
  In p (map fst (dict_set targets k v)) <-> p = k \/ In p (map fst targets).
Proof.
  induction targets as [|[k' v'] targets IH]; simpl.
  - split; [intros [<-|[]]; by left | intros [->|[]]; by left].
  - destruct (decide (k' = k)) as [->|Hne]; simpl.
    + split; intros H; intuition congruence.
    + rewrite IH. split; intros H; intuition congruence.
Qed.

Lemma dict_set_NoDup (targets : dict) (k : str) (v : list Replacement) :
  List.NoDup (map fst targets) -> List.NoDup (map fst (dict_set targets k v)).
Proof.
  induction targets as [|[k' v'] targets IH]; simpl; intros Hnd.
  - constructor; [intros [] | constructor].
  - inversion Hnd as [|? ? Hnotin Hnd']; subst.
    destruct (decide (k' = k)) as [->|Hne]; simpl.
    + by constructor.
    + constructor; [|by apply IH].
      rewrite dict_set_keys. intros [->|Hin]; done.
Qed.

Lemma targets_of_NoDup (table : list (str * list Replacement)) :
  List.NoDup (map fst (targets_of table)).
Proof.
  unfold targets_of.
  assert (H : forall acc : dict, List.NoDup (map fst acc) ->
            List.NoDup (map fst (fold_left
              (fun targets call => add targets (fst call) (snd call)) table acc))).
  { induction table as [|[k v] table IH]; intros acc Hacc; simpl; [done|].
    apply IH. by apply dict_set_NoDup. }
  apply H. constructor.
Qed.

Lemma dict_set_fresh (targets : dict) (k : str) (v : list Replacement) :
  ~ In k (map fst targets) -> dict_set targets k v = targets ++ [(k, v)].
Proof.
  induction targets as [|[k' v'] targets IH]; simpl; intros Hk; [done|].
  destruct (decide (k' = k)) as [->|Hne]; [tauto|].
  rewrite IH; [done | tauto].
Qed.

(** A table that names no path twice is the dict it builds. *)
Lemma targets_of_distinct (table : list (str * list Replacement)) :
  List.NoDup (map fst table) -> targets_of table = table.
Proof.
  unfold targets_of.
  assert (H : forall acc : dict,
            List.NoDup (map fst (acc ++ table)) ->
            fold_left (fun targets call => add targets (fst call) (snd call))
              table acc = acc ++ table).
  { induction table as [|[k v] table IH]; intros acc Hnd; simpl.
    - by rewrite app_nil_r.
    - unfold add at 2. simpl. rewrite dict_set_fresh.
      + rewrite IH; rewrite <- app_assoc; done.
      + rewrite map_app in Hnd. simpl in Hnd.
        apply NoDup_remove_2 in Hnd. rewrite in_app_iff in Hnd. tauto. }
  intros Hnd. by apply (H []).
Qed.

Ltac unfold_turn :=
  unfold loop_body, mbind, M_bind, mret, M_ret, path_exists, read_text,
    write_text, print; simpl.

Lemma loop_body_missing (check : bool) (path : str) (repls : list Replacement)
    (any_changed : bool) (w : world) :
  files w !! path = None ->
  loop_body check path repls any_changed w
  = (Returned any_changed, emit (warn_line path) w).
Proof. intros Hf. unfold_turn. by rewrite Hf. Qed.

Lemma loop_body_unchanged (check : bool) (path : str) (repls : list Replacement)
    (any_changed : bool) (w : world) (content : str) (writable : bool) :
  files w !! path = Some (TextFile content writable) ->
  snd (apply_replacements content repls path) = [] ->
  loop_body check path repls any_changed w
  = (Returned any_changed, emit (ok_line path) w).
Proof.
  intros Hf Ha. unfold_turn. rewrite Hf. simpl. rewrite Hf.
  destruct (apply_replacements content repls path) as [updated changed].
  simpl in Ha. by subst changed.
Qed.

Lemma loop_body_preview (path : str) (repls : list Replacement)
    (any_changed : bool) (w : world) (content updated : str) (writable : bool)
    (changed : list str) :
  files w !! path = Some (TextFile content writable) ->
  apply_replacements content repls path = (updated, changed) ->
  changed <> [] ->
  loop_body true path repls any_changed w
  = (Returned true, emit (edit_line path changed) w).
Proof.
  intros Hf Ha Hne. unfold_turn. rewrite Hf. simpl. rewrite Hf, Ha.
  by destruct changed.
Qed.

(** Case analysis on the turn for [path] from the world [w]. *)
Ltac turn_cases check path repls ac w :=
  let HT := fresh "HT" in
  pose proof (loop_body_Turn check path repls ac w) as HT;
  destruct (loop_body check path repls ac w) as [? ?];
  simpl in HT; inversion HT; subst; clear HT.

(** Every line the loop prints is a report on a file. *)
Lemma for_targets_reports (check : bool) (targets : dict) (any_changed : bool) (w : world) :
  exists lines,
    stdout (snd (for_targets check targets any_changed w)) = stdout w ++ lines
    /\ Forall report_line lines.
Proof.
  revert any_changed w.
  induction targets as [|[path repls] targets IH]; intros ac w.
  - exists []. simpl. by rewrite app_nil_r.
  - rewrite for_targets_cons.
    turn_cases check path repls ac w;
      first
        [ match goal with
          | |- context [for_targets _ targets ?b ?w'] =>
              destruct (IH b w') as [lines [Hout Hall]]; rewrite Hout; simpl;
              rewrite <- app_assoc; eexists; split; [reflexivity|];
              constructor; [|exact Hall]
          end;
          first [apply report_warn | apply report_ok | by apply report_edit]
        | simpl;
          first [ exists []; by rewrite app_nil_r
                | eexists; split; [reflexivity|];
                  constructor; [by apply report_edit | constructor] ] ].
Qed.

(** Check mode leaves the files alone and writes nothing. *)
Lemma for_targets_check_frame (targets : dict) (any_changed : bool) (w : world) :
  files (snd (for_targets true targets any_changed w)) = files w
  /\ writes (snd (for_targets true targets any_changed w)) = writes w.
Proof.
  revert any_changed w.
  induction targets as [|[path repls] targets IH]; intros ac w; [done|].
  rewrite for_targets_cons.
  turn_cases true path repls ac w; try done;
    match goal with
    | |- context [for_targets _ targets ?b ?w'] =>
        destruct (IH b w') as [Hf Hw]; rewrite Hf, Hw; done
    end.
Qed.

(** In apply mode [any_changed] is set exactly when a file is written. *)
Lemma for_targets_apply_flag (targets : dict) (any_changed any_changed' : bool)
    (w w' : world) :
  for_targets false targets any_changed w = (Returned any_changed', w') ->
  exists ws,
    writes w' = writes w ++ ws
    /\ any_changed' = any_changed || (if ws is [] then false else true).
Proof.
  revert any_changed w.
  induction targets as [|[path repls] targets IH]; intros ac w Hrun.
  - simpl in Hrun. injection Hrun as <- <-. exists [].
    by rewrite app_nil_r, orb_false_r.
  - rewrite for_targets_cons in Hrun.
    turn_cases false path repls ac w; try done;
      destruct (IH _ _ Hrun) as [ws [Hw Hac]]; simpl in Hw.
    + by exists ws.
    + by exists ws.
    + exists ((path, updated) :: ws). rewrite Hw, <- app_assoc. split; [done|].
      rewrite Hac. by rewrite orb_true_r.
Qed.

(** The two modes side by side: from worlds that agree on the targets still
    to come, an apply run that returns and the check run print the same
    reports and leave the same [any_changed]. *)
Lemma for_targets_parity (targets : dict) :
  List.NoDup (map fst targets) ->
  forall (any_changed any_changed' : bool) (wa wc wa' : world),
    (forall p, In p (map fst targets) -> files wa !! p = files wc !! p) ->
    for_targets false targets any_changed wa = (Returned any_changed', wa') ->
    exists lines,
      stdout wa' = stdout wa ++ lines
      /\ for_targets true targets any_changed wc
         = (Returned any_changed',
            {| files := files wc; stdout := stdout wc ++ lines; writes := writes wc |}).
Proof.
  induction targets as [|[path repls] targets IH];
    intros Hnd ac ac' wa wc wa' Hagree Hrun.
  - simpl in Hrun. injection Hrun as <- <-. exists [].
    rewrite !app_nil_r. by destruct wc.
  - inversion Hnd as [|? ? Hfresh Hnd']; subst.
    rewrite for_targets_cons in Hrun. rewrite for_targets_cons.
    assert (Hp : files wa !! path = files wc !! path) by (apply Hagree; by left).
    assert (Hrest : forall p, In p (map fst targets) -> files wa !! p = files wc !! p)
      by (intros p Hin; apply Hagree; by right).
    turn_cases false path repls ac wa; try done.
    + rewrite loop_body_missing by congruence.
      destruct (IH Hnd' ac ac' (emit (warn_line path) wa)
                  (emit (warn_line path) wc) wa' Hrest Hrun)
        as [lines [Hout Hc]].
      exists (warn_line path :: lines). simpl in *.
      rewrite Hout, Hc, <- !app_assoc. done.
    + rewrite (loop_body_unchanged _ _ _ _ _ content writable) by congruence.
      destruct (IH Hnd' ac ac' (emit (ok_line path) wa)
                  (emit (ok_line path) wc) wa' Hrest Hrun)
        as [lines [Hout Hc]].
      exists (ok_line path :: lines). simpl in *.
      rewrite Hout, Hc, <- !app_assoc. done.
    + rewrite (loop_body_preview _ _ _ _ content updated true changed)
        by congruence.
      assert (Hrest' : forall p, In p (map fst targets) ->
                files (store path updated (emit (edit_line path changed) wa)) !! p
                = files (emit (edit_line path changed) wc) !! p).
      { intros p Hin. simpl. rewrite lookup_insert_ne; [by apply Hrest|].
        intros ->. done. }
      destruct (IH Hnd' true ac' _ _ wa' Hrest' Hrun) as [lines [Hout Hc]].
      exists (edit_line path changed :: lines). simpl in *.
      rewrite Hout, Hc, <- !app_assoc. done.
Qed.

(** ** Check mode against apply mode *)

Lemma main_check (table : list (str * list Replacement)) (w : world) :
  main true table w
  = match for_targets true (targets_of table) false w with
    | (Returned _, w') => (Returned 0%Z, w')
    | (Raised e, w') => (Raised e, w')
    end.
Proof.
  unfold main, mbind, M_bind, mret, M_ret.
  by destruct (for_targets true (targets_of table) false w) as [[ac|e] w'].
Qed.

Lemma main_apply (table : list (str * list Replacement)) (w : world) :
  main false table w
  = match for_targets false (targets_of table) false w with
    | (Returned any_changed, w') =>
        (Returned 0%Z, if any_changed then w' else emit summary_line w')
    | (Raised e, w') => (Raised e, w')
    end.
Proof.
  unfold main, mbind, M_bind, mret, M_ret, print.
  by destruct (for_targets false (targets_of table) false w) as [[[]|e] w'].
Qed.

(** Check mode never writes: the files are as they were at the end of the
    run, however it ends. *)
Lemma check_mode_writes_nothing (table : list (str * list Replacement))
    (fs : gmap str entry) :
  files (snd (main true table (start fs))) = fs
  /\ writes (snd (main true table (start fs))) = [].
Proof.
  rewrite main_check.
  pose proof (for_targets_check_frame (targets_of table) false (start fs)) as [Hf Hw].
  by destruct (for_targets true (targets_of table) false (start fs)) as [[ac|e] w'].
Qed.

(** C2 (as stated, refuted): with en/index.html already updated, the apply
    run prints the summary line after the reports and the check run does
    not, so the two outputs differ. *)
Lemma parity_counterexample :
  ~ (forall (table : list (str * list Replacement)) (fs : gmap str entry),
       fst (main false table (start fs)) = Returned 0%Z ->
       stdout (snd (main true table (start fs)))
       = stdout (snd (main false table (start fs)))).
Proof.
  intros H. specialize (H sample_table fs_updated eq_refl).
  vm_compute in H. discriminate H.
Qed.

(** C2 (amended): when the apply run returns, the check run from the same
    files returns 0 having printed the same reports, in the same order and
    with the same labels, and having written nothing; the output of the
    apply run is these reports, followed by the summary line when it wrote
    no file. *)
Theorem check_apply_parity (table : list (str * list Replacement))
    (fs : gmap str entry) (status : Z) (wa : world) :
  main false table (start fs) = (Returned status, wa) ->
  exists reports,
    main true table (start fs)
    = (Returned 0%Z, {| files := fs; stdout := reports; writes := [] |})
    /\ stdout wa = reports ++ (if writes wa is [] then [summary_line] else []).
Proof.
  rewrite main_apply, main_check. intros Hrun.
  destruct (for_targets false (targets_of table) false (start fs))
    as [[ac|e] w'] eqn:Ha; [|done].
  destruct (for_targets_parity (targets_of table) (targets_of_NoDup table)
              false ac (start fs) (start fs) w' (fun _ _ => eq_refl) Ha)
    as [reports [Hout Hc]].
  destruct (for_targets_apply_flag _ _ _ _ _ Ha) as [ws [Hw Hac]].
  simpl in *. exists reports. rewrite Hc. split; [done|].
  injection Hrun as _ <-. subst ac.
  destruct ws as [|x ws]; simpl; rewrite Hw, Hout; simpl; [done|].
  by rewrite app_nil_r.
Qed.

Lemma check_apply_parity_witness :
  main false sample_table (start fs_stale)
  = (Returned 0%Z, snd (main false sample_table (start fs_stale)))
  /\ exists reports,
       main true sample_table (start fs_stale)
       = (Returned 0%Z, {| files := fs_stale; stdout := reports; writes := [] |})
       /\ stdout (snd (main false sample_table (start fs_stale)))
          = reports ++ (if writes (snd (main false sample_table (start fs_stale)))
                        is [] then [summary_line] else []).
Proof.
  assert (H : main false sample_table (start fs_stale)
              = (Returned 0%Z, snd (main false sample_table (start fs_stale))))
    by (vm_compute; reflexivity).
  split; [exact H|].
  exact (check_apply_parity sample_table fs_stale 0%Z _ H).
Defined.

(** ** The summary line *)

Lemma report_line_bracket (line : str) :
  report_line line -> exists rest, line = 91%N :: rest.
Proof. intros [path changed _ | path | path]; eexists; reflexivity. Qed.

Lemma summary_line_no_report : ~ report_line summary_line.
Proof. intros [rest H]%report_line_bracket. discriminate H. Qed.

Lemma check_mode_prints_reports (table : list (str * list Replacement))
    (fs : gmap str entry) :
  Forall report_line (stdout (snd (main true table (start fs)))).
Proof.
  rewrite main_check.
  destruct (for_targets_reports true (targets_of table) false (start fs))
    as [lines [Hout Hall]].
  destruct (for_targets true (targets_of table) false (start fs)) as [[ac|e] w'];
    simpl in *; by rewrite Hout.
Qed.

(** C3 (as stated, refuted): with en/index.html already updated no file
    changes, and the check run prints its two reports and no summary
    line. *)
Lemma dry_run_summary_counterexample :
  ~ (forall (table : list (str * list Replacement)) (fs : gmap str entry),
       writes (snd (main false table (start fs))) = [] ->
       In summary_line (stdout (snd (main true table (start fs))))).
Proof.
  intros H. specialize (H sample_table fs_updated eq_refl).
  pose proof (check_mode_prints_reports sample_table fs_updated) as Hall.
  rewrite Forall_forall in Hall.
  apply summary_line_no_report, Hall. by apply list_elem_of_In.
Qed.

(** C3 (amended): the summary line belongs to apply mode.  An apply run
    that returns and wrote no file prints its reports, each of one of the
    three forms, and then the summary line; the check run from the same
    files prints reports only, and never the summary line. *)
Theorem summary_line_in_apply_mode_only (table : list (str * list Replacement))
    (fs : gmap str entry) (status : Z) (wa : world) :
  main false table (start fs) = (Returned status, wa) ->
  writes wa = [] ->
  (exists reports,
     Forall report_line reports /\ stdout wa = reports ++ [summary_line])
  /\ Forall report_line (stdout (snd (main true table (start fs))))
  /\ ~ In summary_line (stdout (snd (main true table (start fs)))).
Proof.
  intros Hrun Hw.
  pose proof (check_mode_prints_reports table fs) as Hall.
  split; [|split; [exact Hall|]].
  - rewrite main_apply in Hrun.
    destruct (for_targets_reports false (targets_of table) false (start fs))
      as [reports [Hout Hreports]].
    destruct (for_targets false (targets_of table) false (start fs))
      as [[ac|e] w'] eqn:Ha; [|done].
    destruct (for_targets_apply_flag _ _ _ _ _ Ha) as [ws [Hws Hac]].
    injection Hrun as _ <-. simpl in Hout, Hws, Hac. exists reports.
    split; [exact Hreports|].
    destruct ws as [|x ws]; subst ac; simpl in *.
    + by rewrite Hout.
    + rewrite Hws in Hw. discriminate Hw.
  - intros Hin. rewrite Forall_forall in Hall.
    apply summary_line_no_report, Hall. by apply list_elem_of_In.
Qed.

Lemma summary_line_in_apply_mode_only_witness :
  stdout (snd (main false sample_table (start fs_updated)))
  = [ ok_line (py "en/index.html"); warn_line (py "nl/index.html") ]
    ++ [summary_line]
  /\ stdout (snd (main true sample_table (start fs_updated)))
     = [ ok_line (py "en/index.html"); warn_line (py "nl/index.html") ]
  /\ ~ In summary_line (stdout (snd (main true sample_table (start fs_updated)))).
Proof.
  assert (H : main false sample_table (start fs_updated)
              = (Returned 0%Z, snd (main false sample_table (start fs_updated))))
    by (vm_compute; reflexivity).
  assert (Hw : writes (snd (main false sample_table (start fs_updated))) = [])
    by (vm_compute; reflexivity).
  destruct (summary_line_in_apply_mode_only sample_table fs_updated 0%Z _ H Hw)
    as [_ [_ Hno]].
  split; [vm_compute; reflexivity|].
  split; [vm_compute; reflexivity | exact Hno].
Defined.

(** ** Exit status *)

Lemma main_unfold (check : bool) (table : list (str * list Replacement)) (w : world) :
  main check table w
  = match for_targets check (targets_of table) false w with
    | (Returned any_changed, w') =>
        (Returned 0%Z, if check || any_changed then w' else emit summary_line w')
    | (Raised e, w') => (Raised e, w')
    end.
Proof.
  destruct check; [rewrite main_check | rewrite main_apply];
    by destruct (for_targets _ (targets_of table) false w) as [[[]|e] w'].
Qed.

(** C7: a run of [main], in check mode or in apply mode, in which nothing
    raises returns 0, whatever the files are and whether or not one of them
    changed or was missing. *)
Theorem main_returns_zero (check : bool) (table : list (str * list Replacement))
    (w : world) :
  (forall e, fst (main check table w) <> Raised e) ->
  fst (main check table w) = Returned 0%Z.
Proof.
  rewrite main_unfold.
  destruct (for_targets check (targets_of table) false w) as [[ac|e] w']; simpl.
  - done.
  - intros H. by destruct (H e).
Qed.

Lemma main_returns_zero_witness :
  fst (main false sample_table (start fs_stale)) = Returned 0%Z
  /\ fst (main true sample_table (start fs_updated)) = Returned 0%Z.
Proof.
  split.
  - apply (main_returns_zero false sample_table (start fs_stale)).
    intros e. vm_compute. discriminate.
  - apply (main_returns_zero true sample_table (start fs_updated)).
    intros e. vm_compute. discriminate.
Defined.

(** Nothing raises when every target that exists is a text file that can
    be written: the run then returns 0. *)
Lemma for_targets_returns (check : bool) (targets : dict) (any_changed : bool)
    (w : world) :
  (forall p, In p (map fst targets) ->
     files w !! p = None \/ exists content, files w !! p = Some (TextFile content true)) ->
  exists any_changed' w',
    for_targets check targets any_changed w = (Returned any_changed', w').
Proof.
  revert any_changed w.
  induction targets as [|[path repls] targets IH]; intros ac w Hgood.
  - by exists ac, w.
  - rewrite for_targets_cons.
    assert (Hp := Hgood path (or_introl eq_refl)).
    assert (Hrest : forall p, In p (map fst targets) ->
              files w !! p = None
              \/ exists content, files w !! p = Some (TextFile content true))
      by (intros p Hin; apply Hgood; by right).
    turn_cases check path repls ac w;
      try (by apply IH);
      try (destruct Hp as [Hp|[c Hp]]; congruence).
    apply IH. intros p Hin. simpl.
    destruct (decide (path = p)) as [->|Hne].
    + right. eexists. by rewrite lookup_insert_eq.
    + rewrite lookup_insert_ne by done. by apply Hrest.
Qed.

Lemma main_returns_on_text_files (check : bool)
    (table : list (str * list Replacement)) (fs : gmap str entry) :
  (forall p, fs !! p = None \/ exists content, fs !! p = Some (TextFile content true)) ->
  fst (main check table (start fs)) = Returned 0%Z.
Proof.
  intros Hgood. rewrite main_unfold.
  destruct (for_targets_returns check (targets_of table) false (start fs)
              (fun p _ => Hgood p)) as [ac [w' ->]].
  done.
Qed.

(** ** Files the run does not write *)

(** A path that is no target still to come is not written, and keeps what
    it holds. *)
Lemma for_targets_untouched (check : bool) (targets : dict) (any_changed : bool)
    (w : world) (p : str) :
  ~ In p (map fst targets) ->
  files (snd (for_targets check targets any_changed w)) !! p = files w !! p
  /\ (~ In p (map fst (writes w)) ->
      ~ In p (map fst (writes (snd (for_targets check targets any_changed w))))).
Proof.
  revert any_changed w.
  induction targets as [|[path repls] targets IH]; intros ac w Hp; [done|].
  simpl in Hp. rewrite for_targets_cons.
  assert (Hne : path <> p) by tauto.
  assert (Hrest : ~ In p (map fst targets)) by tauto.
  turn_cases check path repls ac w; try done;
    match goal with
    | |- context [for_targets _ targets ?b ?w'] =>
        destruct (IH b w' Hrest) as [Hf Hw]; rewrite Hf
    end; try done.
  simpl in *. rewrite lookup_insert_ne by done. split; [done|].
  intros Hno. apply Hw. rewrite map_app, in_app_iff. simpl. tauto.
Qed.

(** C10: in apply mode, a target that exists and in which no rule matched
    is not written: no call of [write_text] names it, and it holds at the
    end what it held at the start. *)
Theorem unmatched_file_is_not_written (table : list (str * list Replacement))
    (before after : dict) (path : str) (repls : list Replacement)
    (content : str) (writable : bool) (fs : gmap str entry) :
  targets_of table = before ++ (path, repls) :: after ->
  fs !! path = Some (TextFile content writable) ->
  snd (apply_replacements content repls path) = [] ->
  ~ In path (map fst (writes (snd (main false table (start fs)))))
  /\ files (snd (main false table (start fs))) !! path
     = Some (TextFile content writable).
Proof.
  intros Hsplit Hfs Hnone.
  pose proof (targets_of_NoDup table) as Hnd. rewrite Hsplit in Hnd.
  rewrite map_app in Hnd. simpl in Hnd.
  pose proof (NoDup_remove_2 _ _ _ Hnd) as Hfresh. rewrite in_app_iff in Hfresh.
  rewrite main_unfold, Hsplit, for_targets_app.
  destruct (for_targets_untouched false before false (start fs) path)
    as [Hf1 Hw1]; [tauto|].
  specialize (Hw1 (fun H => H)). simpl in Hf1. rewrite Hfs in Hf1.
  destruct (for_targets false before false (start fs)) as [[ac1|e] w1];
    [|by simpl in *].
  cbn [fst snd] in Hf1, Hw1. cbv beta iota.
  rewrite for_targets_cons,
    (loop_body_unchanged _ _ _ _ _ content writable) by done.
  destruct (for_targets_untouched false after ac1 (emit (ok_line path) w1) path)
    as [Hf2 Hw2]; [tauto|].
  specialize (Hw2 Hw1). simpl in Hf2. rewrite Hf1 in Hf2.
  destruct (for_targets false after ac1 (emit (ok_line path) w1)) as [[ac2|e] w2];
    simpl in *; [|done].
  by destruct ac2.
Qed.

Lemma unmatched_file_is_not_written_witness :
  ~ In (py "en/index.html")
      (map fst (writes (snd (main false sample_table (start fs_updated)))))
  /\ files (snd (main false sample_table (start fs_updated))) !! py "en/index.html"
     = Some (TextFile (py "<p>Goodbye world</p>") true).
Proof.
  apply (unmatched_file_is_not_written sample_table []
           [(py "nl/index.html", [hello_rule])] (py "en/index.html") [hello_rule]
           (py "<p>Goodbye world</p>") true fs_updated).
  - vm_compute. reflexivity.
  - vm_compute. reflexivity.
  - vm_compute. reflexivity.
Defined.

(** ** Missing files *)

(** What was printed before a turn has no part in it. *)
Lemma emit_after_output (line : str) (out : list str) (w : world) :
  emit line (after_output out w) = after_output out (emit line w).
Proof. unfold emit, after_output. simpl. by rewrite app_assoc. Qed.

Lemma loop_body_after_output (check : bool) (path : str) (repls : list Replacement)
    (any_changed : bool) (w : world) (out : list str) :
  loop_body check path repls any_changed (after_output out w)
  = (fst (loop_body check path repls any_changed w),
     after_output out (snd (loop_body check path repls any_changed w))).
Proof.
  apply Turn_loop_body.
  turn_cases check path repls any_changed w; simpl;
    rewrite <- ?emit_after_output.
  - by apply Turn_missing.
  - by apply Turn_unreadable.
  - by eapply Turn_unchanged.
  - by eapply Turn_preview.
  - change (after_output out (store path updated (emit (edit_line path changed) w)))
      with (store path updated (after_output out (emit (edit_line path changed) w))).
    rewrite <- emit_after_output. by eapply Turn_written.
  - by eapply Turn_write_failed.
Qed.

Lemma for_targets_after_output (check : bool) (targets : dict) (any_changed : bool)
    (w : world) (out : list str) :
  for_targets check targets any_changed (after_output out w)
  = (fst (for_targets check targets any_changed w),
     after_output out (snd (for_targets check targets any_changed w))).
Proof.
  revert any_changed w.
  induction targets as [|[path repls] targets IH]; intros ac w; [done|].
  rewrite !for_targets_cons, loop_body_after_output.
  destruct (loop_body check path repls ac w) as [[ac'|e] w']; simpl; [apply IH | done].
Qed.

(** A path that is missing is missing all through the loop: the loop writes
    only paths that exist. *)
Lemma for_targets_missing (check : bool) (targets : dict) (any_changed : bool)
    (w : world) (p : str) :
  files w !! p = None ->
  files (snd (for_targets check targets any_changed w)) !! p = None.
Proof.
  revert any_changed w.
  induction targets as [|[path repls] targets IH]; intros ac w Hp; [done|].
  rewrite for_targets_cons.
  turn_cases check path repls ac w; try done; apply IH; try done.
  simpl. rewrite lookup_insert_ne; [done | congruence].
Qed.

(** C6: a target that is missing gets its warning and the run goes on.
    Against the run over the table without that target ([table']), the run
    ends the same way (the same exit status, or the same exception from
    another file), leaves the same files and makes the same writes; its
    output is the other output with the warning put in behind the reports
    on the targets before ([before]), when the run gets that far. *)
Theorem missing_file_warns_and_continues (check : bool)
    (table table' : list (str * list Replacement)) (before after : dict)
    (path : str) (repls : list Replacement) (fs : gmap str entry) :
  targets_of table = before ++ (path, repls) :: after ->
  targets_of table' = before ++ after ->
  fs !! path = None ->
  fst (main check table (start fs)) = fst (main check table' (start fs))
  /\ files (snd (main check table (start fs)))
     = files (snd (main check table' (start fs)))
  /\ writes (snd (main check table (start fs)))
     = writes (snd (main check table' (start fs)))
  /\ match for_targets check before false (start fs) with
     | (Returned _, w1) =>
         exists rest,
           stdout (snd (main check table' (start fs))) = stdout w1 ++ rest
           /\ stdout (snd (main check table (start fs)))
              = stdout w1 ++ warn_line path :: rest
     | (Raised _, _) =>
         stdout (snd (main check table (start fs)))
         = stdout (snd (main check table' (start fs)))
     end.
Proof.
  intros Hsplit Hsplit' Hfs.
  rewrite !main_unfold, Hsplit, Hsplit', !for_targets_app.
  pose proof (for_targets_missing check before false (start fs) path Hfs) as Hp.
  destruct (for_targets check before false (start fs)) as [[ac1|e] w1];
    [|by simpl].
  cbn [fst snd] in Hp. cbv beta iota.
  rewrite for_targets_cons, loop_body_missing by done.
  destruct w1 as [f1 o1 ws1]. simpl in Hp.
  pose (w0 := {| files := f1; stdout := []; writes := ws1 |}).
  change (emit (warn_line path) {| files := f1; stdout := o1; writes := ws1 |})
    with {| files := f1; stdout := o1 ++ [warn_line path]; writes := ws1 |}.
  assert (E1 : {| files := f1; stdout := o1 ++ [warn_line path]; writes := ws1 |}
               = after_output (o1 ++ [warn_line path]) w0)
    by (unfold after_output, w0; simpl; by rewrite app_nil_r).
  assert (E2 : {| files := f1; stdout := o1; writes := ws1 |} = after_output o1 w0)
    by (unfold after_output, w0; simpl; by rewrite app_nil_r).
  rewrite E1, E2, !for_targets_after_output.
  destruct (for_targets check after ac1 w0) as [[ac2|e] w2]; simpl.
  - repeat split; try (by destruct (check || ac2)).
    exists (stdout (if check || ac2 then w2 else emit summary_line w2)).
    destruct (check || ac2); simpl; rewrite ?app_nil_r, <- ?app_assoc; done.
  - repeat split. exists (stdout w2). by rewrite ?app_nil_r, <- ?app_assoc.
Qed.

Lemma missing_file_warns_and_continues_witness :
  main true sample_table (start fs_stale)
  = (Returned 0%Z,
     {| files := fs_stale;
        stdout := [ edit_line (py "en/index.html") [py "x:y:z"];
                    warn_line (py "nl/index.html") ];
        writes := [] |})
  /\ fst (main true sample_table (start fs_stale))
     = fst (main true [(py "en/index.html", [hello_rule])] (start fs_stale)).
Proof.
  split; [vm_compute; reflexivity|].
  apply (missing_file_warns_and_continues true sample_table
           [(py "en/index.html", [hello_rule])]
           [(py "en/index.html", [hello_rule])] []
           (py "nl/index.html") [hello_rule] fs_stale).
  - vm_compute. reflexivity.
  - vm_compute. reflexivity.
  - vm_compute. reflexivity.
Defined.

(** * Further properties of the engine *)

(** X1: running a rule list in two parts.  The run over [rules1 ++ rules2]
    is the run over [rules2] from the text the run over [rules1] returns,
    and its labels are those of the first part followed by those of the
    second. *)
Theorem apply_replacements_app (text : str) (rules1 rules2 : list Replacement)
    (file_label : str) :
  apply_replacements text (rules1 ++ rules2) file_label
  = (fst (apply_replacements
            (fst (apply_replacements text rules1 file_label)) rules2 file_label),
     snd (apply_replacements text rules1 file_label)
     ++ snd (apply_replacements
               (fst (apply_replacements text rules1 file_label)) rules2 file_label)).
Proof.
  unfold apply_replacements.
  rewrite for_repl_app.
  destruct (for_repl rules1 text []) as [text1 labels1]. simpl.
  by rewrite for_repl_acc.
Qed.

(** X2: the labels returned are labels of the rules, in the order of the
    rules and at most one for each rule. *)
Theorem applied_labels_sublist (text : str) (rules : list Replacement)
    (file_label : str) :
  snd (apply_replacements text rules file_label) `sublist_of` map label rules
  /\ length (snd (apply_replacements text rules file_label)) <= length rules.
Proof.
  assert (H : snd (apply_replacements text rules file_label)
              `sublist_of` map label rules).
  { unfold apply_replacements. revert text.
    induction rules as [|r rules IH]; intros text; simpl; [done|].
    destruct (str_contains text (old r)); simpl.
    - rewrite for_repl_acc. simpl. apply sublist_skip, IH.
    - apply sublist_cons, IH. }
  split; [exact H|].
  apply sublist_length in H. by rewrite length_map in H.
Qed.

(** X3: no label comes back exactly when no rule's [old] is in the input
    text, and then the text comes back as it was. *)
Theorem no_label_iff_nothing_to_replace (text : str) (rules : list Replacement)
    (file_label : str) :
  (snd (apply_replacements text rules file_label) = []
   <-> forall r, In r rules -> ~ Occurs (old r) text)
  /\ (snd (apply_replacements text rules file_label) = [] ->
      fst (apply_replacements text rules file_label) = text).
Proof.
  unfold apply_replacements.
  assert (Hfwd : snd (for_repl rules text []) = [] ->
                 forall r, In r rules -> ~ Occurs (old r) text)
    by apply for_repl_no_label.
  split; [split; [exact Hfwd|] |].
  - intros Hno. by rewrite for_repl_none_fire.
  - intros Hnil. by rewrite (for_repl_none_fire rules text (Hfwd Hnil)).
Qed.

Lemma flat_map_singleton (t : str) : flat_map (fun c => [c]) t = t.
Proof. induction t as [|c t IH]; simpl; [done | by rewrite IH]. Qed.

Lemma flat_map_boundaries_length (new t : str) :
  length t <= length (flat_map (fun c => c :: new) t).
Proof.
  induction t as [|c t IH]; simpl; [done|]. rewrite length_app. lia.
Qed.

Lemma ReplacedAll_same (old t t' : str) : ReplacedAll old old t t' -> t' = t.
Proof.
  induction 1 as [t Hold | t Hold Hno | before rest rest' Hold Hno _ IH].
  - rewrite str_join_boundaries. subst old. simpl. apply flat_map_singleton.
  - done.
  - by rewrite IH.
Qed.

Lemma str_replace_same (t old : str) : str_replace t old old = t.
Proof. apply ReplacedAll_same with (old := old), str_replace_ReplacedAll. Qed.

(** A shorter [new] never makes the text longer, a longer one never makes
    it shorter. *)
Lemma ReplacedAll_length (old new t t' : str) :
  ReplacedAll old new t t' -> old <> [] ->
  (length new <= length old -> length t' <= length t)
  /\ (length old <= length new -> length t <= length t').
Proof.
  induction 1 as [t Hold | t Hold Hno | before rest rest' Hold Hno _ IH];
    intros Hne; [done | done |].
  destruct (IH Hne) as [IH1 IH2]. rewrite !length_app.
  split; intros Hlen; [specialize (IH1 Hlen) | specialize (IH2 Hlen)]; lia.
Qed.

Lemma str_replace_Occurs_new (t old new : str) :
  Occurs old t -> Occurs new (str_replace t old new).
Proof.
  intros Hocc. destruct old as [|o old'] eqn:Eold.
  - exists [], (flat_map (fun c => c :: new) t). done.
  - rewrite <- Eold in *. assert (Hold : old <> []) by (by subst).
    assert (Hr : str_replace t old new = replace_scan old new 0 t) by (by subst).
    destruct (first_occurrence old t Hold Hocc) as [before [rest [-> Hno]]].
    rewrite Hr, replace_scan_first by done.
    by exists before, (replace_scan old new 0 rest).
Qed.

Lemma str_replace_changes (t old new : str) :
  Occurs old t -> new <> old -> str_replace t old new <> t.
Proof.
  intros Hocc Hne Heq. destruct old as [|o old'] eqn:Eold.
  - unfold str_replace in Heq. apply (f_equal length) in Heq.
    rewrite length_app in Heq.
    pose proof (flat_map_boundaries_length new t).
    destruct new; [done | simpl in Heq; lia].
  - rewrite <- Eold in *. assert (Hold : old <> []) by (by subst).
    assert (Hr : forall u, str_replace u old new = replace_scan old new 0 u)
      by (by subst).
    destruct (first_occurrence old t Hold Hocc) as [before [rest [-> Hno]]].
    rewrite Hr, replace_scan_first in Heq by done.
    apply app_inv_head in Heq.
    pose proof (str_replace_ReplacedAll rest old new) as Hrep. rewrite Hr in Hrep.
    destruct (ReplacedAll_length _ _ _ _ Hrep Hold) as [Hle Hge].
    pose proof (f_equal length Heq) as Hlen. rewrite !length_app in Hlen.
    destruct (Nat.lt_trichotomy (length new) (length old)) as [Hlt|[Hlt|Hlt]].
    + assert (length (replace_scan old new 0 rest) <= length rest) by (apply Hle; lia).
      lia.
    + by apply app_inj_1 in Heq as [? _].
    + assert (length rest <= length (replace_scan old new 0 rest)) by (apply Hge; lia).
      lia.
Qed.

Lemma apply_replacements_snoc (text : str) (before : list Replacement)
    (rule : Replacement) (file_label : str) :
  Occurs (old rule) (fst (apply_replacements text before file_label)) ->
  apply_replacements text (before ++ [rule]) file_label
  = (str_replace (fst (apply_replacements text before file_label))
       (old rule) (new rule),
     snd (apply_replacements text before file_label) ++ [label rule]).
Proof.
  unfold apply_replacements. intros Hocc%str_contains_Occurs.
  rewrite for_repl_app. simpl. by rewrite Hocc.
Qed.

Lemma apply_replacements_snoc_absent (text : str) (before : list Replacement)
    (rule : Replacement) (file_label : str) :
  ~ Occurs (old rule) (fst (apply_replacements text before file_label)) ->
  apply_replacements text (before ++ [rule]) file_label
  = apply_replacements text before file_label.
Proof.
  unfold apply_replacements. intros Hno%str_contains_not_Occurs.
  rewrite for_repl_app. simpl. rewrite Hno. simpl.
  by destruct (for_repl before text []).
Qed.

(** X4: a rule whose [new] is its [old] changes nothing in the text; when
    its [old] is in the text at its turn its label is returned all the
    same. *)
Theorem rule_with_new_equal_old (text : str) (before : list Replacement)
    (rule : Replacement) (file_label : str) :
  new rule = old rule ->
  fst (apply_replacements text (before ++ [rule]) file_label)
  = fst (apply_replacements text before file_label)
  /\ (Occurs (old rule) (fst (apply_replacements text before file_label)) ->
      snd (apply_replacements text (before ++ [rule]) file_label)
      = snd (apply_replacements text before file_label) ++ [label rule]).
Proof.
  intros Hsame. split.
  - destruct (str_contains (fst (apply_replacements text before file_label))
                (old rule)) eqn:Hc.
    + apply str_contains_Occurs in Hc.
      rewrite apply_replacements_snoc by done. simpl.
      rewrite Hsame. apply str_replace_same.
    + apply str_contains_not_Occurs in Hc.
      by rewrite apply_replacements_snoc_absent.
  - intros Hocc. by rewrite apply_replacements_snoc.
Qed.

Lemma rule_with_new_equal_old_witness :
  apply_replacements (py "<p>Hello world</p>")
    ([] ++ [ {| old := py "Hello"; new := py "Hello"; label := py "same" |} ])
    (py "f")
  = (py "<p>Hello world</p>", [py "same"]).
Proof.
  pose proof (rule_with_new_equal_old (py "<p>Hello world</p>") []
                {| old := py "Hello"; new := py "Hello"; label := py "same" |}
                (py "f") eq_refl) as [Htext Hlabels].
  rewrite (surjective_pairing (apply_replacements _ _ _)).
  rewrite Htext, Hlabels; [reflexivity|].
  apply str_contains_Occurs. vm_compute. reflexivity.
Defined.

(** X5: a rule whose [old] is in the text at its turn leaves a text that
    holds its [new], gets its label returned, and, unless its [new] is its
    [old], leaves a text other than the one it found. *)
Theorem matched_rule_changes_text (text : str) (before : list Replacement)
    (rule : Replacement) (file_label : str) :
  Occurs (old rule) (fst (apply_replacements text before file_label)) ->
  Occurs (new rule) (fst (apply_replacements text (before ++ [rule]) file_label))
  /\ snd (apply_replacements text (before ++ [rule]) file_label)
     = snd (apply_replacements text before file_label) ++ [label rule]
  /\ (new rule <> old rule ->
      fst (apply_replacements text (before ++ [rule]) file_label)
      <> fst (apply_replacements text before file_label)).
Proof.
  intros Hocc. rewrite apply_replacements_snoc by done. simpl.
  split; [by apply str_replace_Occurs_new|].
  split; [done|].
  intros Hne. by apply str_replace_changes.
Qed.

Lemma matched_rule_changes_text_witness :
  Occurs (py "Goodbye world")
    (fst (apply_replacements (py "<p>Hello world</p>") ([] ++ [hello_rule]) (py "f")))
  /\ fst (apply_replacements (py "<p>Hello world</p>") ([] ++ [hello_rule]) (py "f"))
     <> py "<p>Hello world</p>".
Proof.
  assert (Hocc : Occurs (old hello_rule)
                   (fst (apply_replacements (py "<p>Hello world</p>") [] (py "f"))))
    by (apply str_contains_Occurs; vm_compute; reflexivity).
  destruct (matched_rule_changes_text (py "<p>Hello world</p>") [] hello_rule
              (py "f") Hocc) as [Hnew [_ Hchg]].
  split; [exact Hnew|].
  apply Hchg. vm_compute. discriminate.
Defined.

(** * Further properties of the table *)

Lemma dict_set_In (targets : dict) (k p : str) (v r : list Replacement) :
  List.NoDup (map fst targets) ->
  In (p, r) (dict_set targets k v)
  <-> (p = k /\ r = v) \/ (p <> k /\ In (p, r) targets).
Proof.
  induction targets as [|[k' v'] targets IH]; simpl; intros Hnd.
  - split.
    + intros [H|[]]. injection H as <- <-. by left.
    + intros [[-> ->]|[_ []]]. by left.
  - inversion Hnd as [|? ? Hfresh Hnd']; subst.
    destruct (decide (k' = k)) as [->|Hne]; simpl.
    + split.
      * intros [H|H]; [injection H as <- <-; by left|].
        right. split; [|by right]. intros ->. apply Hfresh.
        apply in_map_iff. by exists (k, r).
      * intros [[-> ->]|[Hpk [H|H]]]; [by left | | by right].
        injection H as -> _. done.
    + rewrite (IH Hnd'). split.
      * intros [H|[[-> ->]|[Hpk H]]].
        -- injection H as <- <-. right. split; [done | by left].
        -- by left.
        -- right. split; [done | by right].
      * intros [[-> ->]|[Hpk [H|H]]].
        -- right. by left.
        -- by left.
        -- right. right. done.
Qed.

Lemma fold_add_NoDup (table : list (str * list Replacement)) (acc : dict) :
  List.NoDup (map fst acc) ->
  List.NoDup (map fst (fold_left
    (fun targets call => add targets (fst call) (snd call)) table acc)).
Proof.
  revert acc. induction table as [|[k v] table IH]; intros acc Hacc; simpl; [done|].
  apply IH. by apply dict_set_NoDup.
Qed.

Lemma fold_add_keys (table : list (str * list Replacement)) (acc : dict) (p : str) :
  In p (map fst (fold_left
    (fun targets call => add targets (fst call) (snd call)) table acc))
  <-> In p (map fst acc) \/ In p (map fst table).
Proof.
  revert acc. induction table as [|[k v] table IH]; intros acc; simpl; [tauto|].
  rewrite IH. unfold add. rewrite dict_set_keys.
  split; intros H; intuition congruence.
Qed.

Lemma targets_of_keys (table : list (str * list Replacement)) (p : str) :
  In p (map fst (targets_of table)) <-> In p (map fst table).
Proof. unfold targets_of. rewrite fold_add_keys. simpl. tauto. Qed.

Lemma fold_add_In (table : list (str * list Replacement)) (acc : dict)
    (p : str) (r : list Replacement) :
  List.NoDup (map fst acc) ->
  In (p, r) (fold_left
    (fun targets call => add targets (fst call) (snd call)) table acc)
  <-> (exists pre post, table = pre ++ (p, r) :: post /\ ~ In p (map fst post))
      \/ (In (p, r) acc /\ ~ In p (map fst table)).
Proof.
  revert acc. induction table as [|[k v] table IH]; intros acc Hacc; simpl.
  - split; [tauto|]. intros [[pre [post [H _]]]|[H _]]; [|done].
    by destruct pre.
  - rewrite (IH _ (dict_set_NoDup acc k v Hacc)). unfold add.
    rewrite (dict_set_In acc k p v r Hacc). split.
    + intros [[pre [post [-> Hpost]]]|[[[-> ->]|[Hpk Hin]] Htab]].
      * left. by exists ((k, v) :: pre), post.
      * left. by exists [], table.
      * right. split; [done|]. intros [->|H]; done.
    + intros [[[|x pre] [post [Heq Hpost]]]|[Hin Hno]].
      * simpl in Heq. simplify_eq. right. split; [by left | done].
      * simpl in Heq. simplify_eq. left. by exists pre, post.
      * right. split; [|tauto]. right. split; [|done]. intros ->. tauto.
Qed.

(** X6: the dict built by the calls of [add] holds every path once, with
    the rules of the last call that names it. *)
Theorem targets_of_last_add_wins (table : list (str * list Replacement))
    (p : str) (r : list Replacement) :
  List.NoDup (map fst (targets_of table))
  /\ (In (p, r) (targets_of table)
      <-> exists pre post,
            table = pre ++ (p, r) :: post /\ ~ In p (map fst post)).
Proof.
  unfold targets_of. split.
  - apply fold_add_NoDup. constructor.
  - rewrite fold_add_In by constructor. simpl. tauto.
Qed.

(** X7: [add] on a path the dict holds keeps the order of the paths (the
    path stays where it was first put); on a new path it puts the path
    last. *)
Theorem add_keeps_insertion_order (targets : dict) (rel_path : str)
    (repls : list Replacement) :
  (In rel_path (map fst targets) ->
   map fst (add targets rel_path repls) = map fst targets)
  /\ (~ In rel_path (map fst targets) ->
      add targets rel_path repls = targets ++ [(rel_path, repls)]).
Proof.
  unfold add. split; [|apply dict_set_fresh].
  induction targets as [|[k' v'] targets IH]; simpl; [done|].
  intros Hin. destruct (decide (k' = rel_path)) as [->|Hne]; simpl; [done|].
  f_equal. apply IH. tauto.
Qed.

(** * Further properties of the driver *)

(** X8: a path that no call of [add] names is left alone, in check mode
    and in apply mode and however the run ends: it is not written and holds
    at the end what it held at the start. *)
Theorem paths_outside_table_untouched (check : bool)
    (table : list (str * list Replacement)) (fs : gmap str entry) (p : str) :
  ~ In p (map fst table) ->
  files (snd (main check table (start fs))) !! p = fs !! p
  /\ ~ In p (map fst (writes (snd (main check table (start fs))))).
Proof.
  intros Hp. rewrite <- targets_of_keys in Hp. rewrite main_unfold.
  destruct (for_targets_untouched check (targets_of table) false (start fs) p Hp)
    as [Hf Hw].
  specialize (Hw (fun H => H)).
  destruct (for_targets check (targets_of table) false (start fs)) as [[ac|e] w'];
    simpl in *; [|done].
  by destruct (check || ac).
Qed.

Lemma paths_outside_table_untouched_witness :
  files (snd (main false sample_table
                (start (<[ py "en/contact.html" := TextFile (py "<p>Hello world</p>") true ]>
                          fs_stale))))
    !! py "en/contact.html"
  = Some (TextFile (py "<p>Hello world</p>") true).
Proof.
  destruct (paths_outside_table_untouched false sample_table
              (<[ py "en/contact.html" := TextFile (py "<p>Hello world</p>") true ]>
                 fs_stale)
              (py "en/contact.html")) as [Hf _].
  - vm_compute. intros [H|[H|[]]]; discriminate H.
  - rewrite Hf. vm_compute. reflexivity.
Defined.

Lemma for_targets_check_no_write_error (targets : dict) (any_changed : bool)
    (w : world) (p : str) :
  fst (for_targets true targets any_changed w) <> Raised (WriteFailed p).
Proof.
  revert any_changed w.
  induction targets as [|[path repls] targets IH]; intros ac w; [done|].
  rewrite for_targets_cons.
  turn_cases true path repls ac w; try done; apply IH.
Qed.

(** X9: check mode reads only.  However the run ends, the files are what
    they were, [write_text] was not called, and what is raised, if something
    is, is not a failure to write. *)
Theorem check_mode_is_read_only (table : list (str * list Replacement))
    (fs : gmap str entry) :
  files (snd (main true table (start fs))) = fs
  /\ writes (snd (main true table (start fs))) = []
  /\ forall p, fst (main true table (start fs)) <> Raised (WriteFailed p).
Proof.
  rewrite main_check.
  pose proof (for_targets_check_frame (targets_of table) false (start fs)) as [Hf Hw].
  pose proof (for_targets_check_no_write_error (targets_of table) false (start fs))
    as Hno.
  destruct (for_targets true (targets_of table) false (start fs)) as [[ac|e] w'];
    simpl in *; (split; [exact Hf | split; [exact Hw|]]).
  - done.
  - intros p H. apply (Hno p). injection H as ->. done.
Qed.

Lemma for_targets_check_reports (targets : dict) (any_changed : bool) (w : world)
    (reports : list str) :
  mapM (report_of (files w)) targets = Some reports ->
  exists any_changed',
    for_targets true targets any_changed w
    = (Returned any_changed',
       {| files := files w; stdout := stdout w ++ reports; writes := writes w |}).
Proof.
  revert any_changed w reports.
  induction targets as [|[path repls] targets IH]; intros ac w reports Hrep.
  - simpl in Hrep. injection Hrep as <-. exists ac. simpl.
    rewrite app_nil_r. by destruct w.
  - simpl in Hrep.
    destruct (report_of (files w) (path, repls)) as [line|] eqn:Hline; [|done].
    destruct (mapM (report_of (files w)) targets) as [lines|] eqn:Hlines; [|done].
    simpl in Hrep. injection Hrep as <-.
    rewrite for_targets_cons. unfold report_of in Hline. simpl in Hline.
    destruct (files w !! path) as [[content writable|]|] eqn:Hf; [| done |].
    + destruct (apply_replacements content repls path) as [updated changed] eqn:Ha.
      simpl in Hline. destruct changed as [|l changed].
      * injection Hline as <-.
        rewrite (loop_body_unchanged _ _ _ _ _ content writable)
          by first [exact Hf | rewrite Ha; reflexivity].
        destruct (IH ac (emit (ok_line path) w) lines Hlines) as [ac' ->].
        exists ac'. unfold emit. cbn [files stdout writes]. by rewrite <- app_assoc.
      * injection Hline as <-.
        rewrite (loop_body_preview _ _ _ _ content updated writable (l :: changed))
          by done.
        destruct (IH true (emit (edit_line path (l :: changed)) w) lines Hlines)
          as [ac' ->].
        exists ac'. unfold emit. cbn [files stdout writes]. by rewrite <- app_assoc.
    + injection Hline as <-. rewrite loop_body_missing by done.
      destruct (IH ac (emit (warn_line path) w) lines Hlines) as [ac' ->].
      exists ac'. unfold emit. cbn [files stdout writes]. by rewrite <- app_assoc.
Qed.

(** X10: what check mode prints is read off the files it starts from.
    When every target that exists can be read, the run returns 0 and its
    output is, target by target in the order of the dict, the warning for a
    missing path, the no-changes line for a text no rule matches, and else
    the edit line with the labels the engine returns for that text. *)
Theorem check_mode_output (table : list (str * list Replacement))
    (fs : gmap str entry) (reports : list str) :
  mapM (report_of fs) (targets_of table) = Some reports ->
  main true table (start fs)
  = (Returned 0%Z, {| files := fs; stdout := reports; writes := [] |}).
Proof.
  intros Hrep. rewrite main_check.
  destruct (for_targets_check_reports (targets_of table) false (start fs)
              reports Hrep) as [ac' ->].
  done.
Qed.

Lemma check_mode_output_witness :
  main true sample_table (start fs_read_only)
  = (Returned 0%Z,
     {| files := fs_read_only;
        stdout := [ py "[EDIT] en/index.html -> x:y:z";
                    py "[EDIT] nl/index.html -> x:y:z" ];
        writes := [] |}).
Proof.
  apply (check_mode_output sample_table fs_read_only).
  vm_compute. reflexivity.
Defined.

(** In apply mode the loop writes paths it has yet to come to, and only
    those; what a target's path holds after the loop is the engine's output
    on what it held before. *)
Lemma for_targets_apply_files (targets : dict) :
  List.NoDup (map fst targets) ->
  forall (any_changed any_changed' : bool) (w w' : world),
    for_targets false targets any_changed w = (Returned any_changed', w') ->
    forall path repls,
      In (path, repls) targets ->
      files w' !! path = updated_entry repls path (files w !! path).
Proof.
  induction targets as [|[p r] targets IH]; intros Hnd ac ac' w w' Hrun path repls Hin;
    [done|].
  inversion Hnd as [|? ? Hfresh Hnd']; subst.
  rewrite for_targets_cons in Hrun.
  destruct Hin as [Heq|Hin].
  - injection Heq as -> ->.
    turn_cases false path repls ac w; try done;
      match type of Hrun with
      | for_targets _ _ ?b ?w1 = _ =>
          destruct (for_targets_untouched false targets b w1 path Hfresh) as [Hf _];
          rewrite Hrun in Hf; simpl in Hf; rewrite Hf
      end;
      match goal with H : files w !! path = _ |- _ => rewrite H end; simpl.
    + done.
    + assert (Htext : fst (apply_replacements content repls path) = content).
      { unfold apply_replacements in *.
        match goal with
        | H : snd (for_repl repls content []) = [] |- _ =>
            by rewrite (for_repl_none_fire _ _ (for_repl_no_label _ _ H))
        end. }
      by rewrite Htext.
    + rewrite lookup_insert_eq.
      match goal with
      | H : apply_replacements content repls path = _ |- _ => by rewrite H
      end.
  - assert (Hne : p <> path).
    { intros ->. apply Hfresh. apply in_map_iff. by exists (path, repls). }
    turn_cases false p r ac w; try done;
      rewrite (IH Hnd' _ _ _ _ Hrun path repls Hin); simpl; try done.
    by rewrite lookup_insert_ne.
Qed.

(** X11: what an apply run that returns leaves in the files.  Every target
    that is a text file holds the engine's output on the text it held at
    the start (the same text when no rule matched), as writable as it was;
    a target that was missing is still missing. *)
Theorem apply_mode_files (table : list (str * list Replacement))
    (fs : gmap str entry) (status : Z) (wa : world)
    (path : str) (repls : list Replacement) :
  main false table (start fs) = (Returned status, wa) ->
  In (path, repls) (targets_of table) ->
  files wa !! path = updated_entry repls path (fs !! path).
Proof.
  rewrite main_apply. intros Hrun Hin.
  destruct (for_targets false (targets_of table) false (start fs))
    as [[ac|e] w'] eqn:Ha; [|done].
  pose proof (for_targets_apply_files (targets_of table) (targets_of_NoDup table)
                false ac (start fs) w' Ha path repls Hin) as Hf.
  injection Hrun as _ <-. by destruct ac.
Qed.

Lemma apply_mode_files_witness :
  files (snd (main false sample_table (start fs_stale))) !! py "en/index.html"
  = Some (TextFile (py "<p>Goodbye world</p>") true)
  /\ files (snd (main false sample_table (start fs_stale))) !! py "nl/index.html"
     = None.
Proof.
  assert (H : main false sample_table (start fs_stale)
              = (Returned 0%Z, snd (main false sample_table (start fs_stale))))
    by (vm_compute; reflexivity).
  split.
  - rewrite (apply_mode_files sample_table fs_stale 0%Z _
               (py "en/index.html") [hello_rule] H).
    + vm_compute. reflexivity.
    + vm_compute. by left.
  - rewrite (apply_mode_files sample_table fs_stale 0%Z _
               (py "nl/index.html") [hello_rule] H).
    + vm_compute. reflexivity.
    + vm_compute. right. by left.
Defined.

(** The loop only adds to the record of writes, a path at most once and in
    the order of the targets. *)
Lemma for_targets_writes_sublist (check : bool) (targets : dict)
    (any_changed : bool) (w : world) :
  exists ws,
    writes (snd (for_targets check targets any_changed w)) = writes w ++ ws
    /\ map fst ws `sublist_of` map fst targets.
Proof.
  revert any_changed w.
  induction targets as [|[path repls] targets IH]; intros ac w.
  - exists []. by rewrite app_nil_r.
  - rewrite for_targets_cons.
    turn_cases check path repls ac w;
      try (match goal with
           | |- context [for_targets _ targets ?b ?w1] =>
               destruct (IH b w1) as [ws [Hw Hsub]]
           end);
      try (exists []; simpl; rewrite app_nil_r; split; [done | apply sublist_nil_l]).
    + exists ws. split; [done | by apply sublist_cons].
    + exists ws. split; [done | by apply sublist_cons].
    + exists ws. split; [done | by apply sublist_cons].
    + exists ((path, updated) :: ws). rewrite Hw. simpl.
      rewrite <- app_assoc. split; [done | by apply sublist_skip].
Qed.

(** X12: the calls of [write_text] follow the dict: the paths written are
    paths of the dict, in its order, and none is written twice. *)
Theorem writes_follow_table (check : bool) (table : list (str * list Replacement))
    (fs : gmap str entry) :
  map fst (writes (snd (main check table (start fs))))
    `sublist_of` map fst (targets_of table)
  /\ List.NoDup (map fst (writes (snd (main check table (start fs))))).
Proof.
  assert (H : map fst (writes (snd (main check table (start fs))))
              `sublist_of` map fst (targets_of table)).
  { rewrite main_unfold.
    destruct (for_targets_writes_sublist check (targets_of table) false (start fs))
      as [ws [Hw Hsub]].
    destruct (for_targets check (targets_of table) false (start fs))
      as [[ac|e] w']; simpl in *.
    - destruct (check || ac); simpl; by rewrite Hw.
    - by rewrite Hw. }
  split; [exact H|].
  apply NoDup_ListNoDup. eapply sublist_NoDup; [|exact H].
  apply NoDup_ListNoDup, targets_of_NoDup.
Qed.

Lemma for_targets_writes_data (targets : dict) :
  List.NoDup (map fst targets) ->
  forall (any_changed : bool) (w : world) (p data : str),
    In (p, data) (writes (snd (for_targets false targets any_changed w))) ->
    In (p, data) (writes w)
    \/ exists repls content changed,
         In (p, repls) targets
         /\ files w !! p = Some (TextFile content true)
         /\ apply_replacements content repls p = (data, changed)
         /\ changed <> [].
Proof.
  induction targets as [|[path repls] targets IH]; intros Hnd ac w p data Hin;
    [by left|].
  inversion Hnd as [|? ? Hfresh Hnd']; subst.
  rewrite for_targets_cons in Hin.
  turn_cases false path repls ac w; try done; try (by left);
    apply (IH Hnd') in Hin as [Hin|(r & c & ch & Hr & Hf & Ha & Hne)];
    try (by left);
    try (right; exists r, c, ch; by (repeat split; [by right|..])).
  - simpl in Hin. apply in_app_iff in Hin as [Hin|[Heq|[]]]; [by left|].
    injection Heq as <- <-. right.
    exists repls, content, changed. repeat split; [by left | done..].
  - right. exists r, c, ch. repeat split; [by right | | done..].
    simpl in Hf. rewrite lookup_insert_ne in Hf; [done|].
    intros ->. apply Hfresh. apply in_map_iff. by exists (p, r).
Qed.

(** X13: what is written is the engine's output.  Every call of
    [write_text] stores, at the path of a target that was a writable text
    file at the start, the text the engine returns for the text the file
    held at the start and the rules of that target, and the engine returned
    a label with it. *)
Theorem every_write_is_engine_output (table : list (str * list Replacement))
    (fs : gmap str entry) (p data : str) :
  In (p, data) (writes (snd (main false table (start fs)))) ->
  exists repls content changed,
    In (p, repls) (targets_of table)
    /\ fs !! p = Some (TextFile content true)
    /\ apply_replacements content repls p = (data, changed)
    /\ changed <> [].
Proof.
  rewrite main_apply. intros Hin.
  pose proof (for_targets_writes_data (targets_of table) (targets_of_NoDup table)
                false (start fs) p data) as H.
  destruct (for_targets false (targets_of table) false (start fs))
    as [[ac|e] w'] eqn:Ha; simpl in *.
  - destruct H as [[]|H]; [by destruct ac | exact H].
  - destruct H as [[]|H]; [exact Hin | exact H].
Qed.

Lemma every_write_is_engine_output_witness :
  exists repls content changed,
    In (py "en/index.html", repls) (targets_of sample_table)
    /\ fs_stale !! py "en/index.html" = Some (TextFile content true)
    /\ apply_replacements content repls (py "en/index.html")
       = (py "<p>Goodbye world</p>", changed)
    /\ changed <> [].
Proof.
  apply (every_write_is_engine_output sample_table fs_stale).
  vm_compute. by left.
Defined.

Lemma for_targets_dom (check : bool) (targets : dict) (any_changed : bool)
    (w : world) :
  dom (files (snd (for_targets check targets any_changed w))) = dom (files w).
Proof.
  revert any_changed w.
  induction targets as [|[path repls] targets IH]; intros ac w; [done|].
  rewrite for_targets_cons.
  turn_cases check path repls ac w; try done; rewrite IH; try done.
  simpl. rewrite dom_insert_L.
  apply subseteq_union_1_L, singleton_subseteq_l, elem_of_dom. eauto.
Qed.

(** X14: a run creates no file and removes none: the paths that exist at
    the end are those that existed at the start, in both modes and however
    the run ends. *)
Theorem main_keeps_the_paths (check : bool) (table : list (str * list Replacement))
    (fs : gmap str entry) :
  dom (files (snd (main check table (start fs)))) = dom fs.
Proof.
  rewrite main_unfold.
  pose proof (for_targets_dom check (targets_of table) false (start fs)) as H.
  destruct (for_targets check (targets_of table) false (start fs)) as [[ac|e] w'];
    simpl in *; [|done].
  by destruct (check || ac).
Qed.

Lemma loop_body_unreadable (check : bool) (path : str) (repls : list Replacement)
    (any_changed : bool) (w : world) :
  files w !! path = Some Unreadable ->
  loop_body check path repls any_changed w = (Raised (ReadFailed path), w).
Proof. intros Hf. by apply Turn_loop_body, Turn_unreadable. Qed.

(** X15: a target that exists and cannot be read ends the run, in both
    modes: [main] raises the read failure for that path in the world the
    targets before it left.  Their reports are printed and, in apply mode,
    their writes are made and stay; the targets after it are not looked
    at. *)
Theorem unreadable_target_aborts (check : bool)
    (table : list (str * list Replacement)) (before after : dict)
    (path : str) (repls : list Replacement) (fs : gmap str entry)
    (any_changed : bool) (w1 : world) :
  targets_of table = before ++ (path, repls) :: after ->
  fs !! path = Some Unreadable ->
  for_targets check before false (start fs) = (Returned any_changed, w1) ->
  main check table (start fs) = (Raised (ReadFailed path), w1).
Proof.
  intros Hsplit Hfs Hbefore.
  pose proof (targets_of_NoDup table) as Hnd. rewrite Hsplit in Hnd.
  rewrite map_app in Hnd. simpl in Hnd.
  pose proof (NoDup_remove_2 _ _ _ Hnd) as Hfresh. rewrite in_app_iff in Hfresh.
  destruct (for_targets_untouched check before false (start fs) path)
    as [Hf _]; [tauto|].
  rewrite Hbefore in Hf. simpl in Hf. rewrite Hfs in Hf.
  rewrite main_unfold, Hsplit, for_targets_app, Hbefore.
  by rewrite for_targets_cons, loop_body_unreadable.
Qed.

Lemma unreadable_target_aborts_witness :
  main false sample_table (start fs_unreadable)
  = (Raised (ReadFailed (py "nl/index.html")),
     {| files := <[ py "en/index.html" := TextFile (py "<p>Goodbye world</p>") true ]>
                   fs_unreadable;
        stdout := [ py "[EDIT] en/index.html -> x:y:z" ];
        writes := [ (py "en/index.html", py "<p>Goodbye world</p>") ] |}).
Proof.
  apply (unreadable_target_aborts false sample_table
           [(py "en/index.html", [hello_rule])] []
           (py "nl/index.html") [hello_rule] fs_unreadable true).
  - vm_compute. reflexivity.
  - vm_compute. reflexivity.
  - vm_compute. reflexivity.
Defined.

(** X16: in apply mode a target that needs an edit and cannot be written
    ends the run: the edit line for it is printed, then [main] raises the
    write failure for that path; the file holds what it held, and the
    writes made for the targets before it stay. *)
Theorem read_only_target_aborts_apply (table : list (str * list Replacement))
    (before after : dict) (path : str) (repls : list Replacement)
    (content updated : str) (changed : list str) (fs : gmap str entry)
    (any_changed : bool) (w1 : world) :
  targets_of table = before ++ (path, repls) :: after ->
  fs !! path = Some (TextFile content false) ->
  apply_replacements content repls path = (updated, changed) ->
  changed <> [] ->
  for_targets false before false (start fs) = (Returned any_changed, w1) ->
  main false table (start fs)
  = (Raised (WriteFailed path), emit (edit_line path changed) w1)
  /\ files w1 !! path = Some (TextFile content false).
Proof.
  intros Hsplit Hfs Ha Hne Hbefore.
  pose proof (targets_of_NoDup table) as Hnd. rewrite Hsplit in Hnd.
  rewrite map_app in Hnd. simpl in Hnd.
  pose proof (NoDup_remove_2 _ _ _ Hnd) as Hfresh. rewrite in_app_iff in Hfresh.
  destruct (for_targets_untouched false before false (start fs) path)
    as [Hf _]; [tauto|].
  rewrite Hbefore in Hf. simpl in Hf. rewrite Hfs in Hf.
  split; [|exact Hf].
  rewrite main_unfold, Hsplit, for_targets_app, Hbefore.
  rewrite for_targets_cons.
  by rewrite (Turn_loop_body _ _ _ _ _ _ _
                (Turn_write_failed false path repls any_changed w1
                   content updated changed Hf Ha Hne eq_refl)).
Qed.

Lemma read_only_target_aborts_apply_witness :
  main false sample_table (start fs_read_only)
  = (Raised (WriteFailed (py "nl/index.html")),
     {| files := <[ py "en/index.html" := TextFile (py "<p>Goodbye world</p>") true ]>
                   fs_read_only;
        stdout := [ py "[EDIT] en/index.html -> x:y:z";
                    py "[EDIT] nl/index.html -> x:y:z" ];
        writes := [ (py "en/index.html", py "<p>Goodbye world</p>") ] |}).
Proof.
  refine (proj1 (read_only_target_aborts_apply sample_table
           [(py "en/index.html", [hello_rule])] []
           (py "nl/index.html") [hello_rule]
           (py "<h1>Hello world</h1>") (py "<h1>Goodbye world</h1>") [py "x:y:z"]
           fs_read_only true
           {| files := <[ py "en/index.html"
                           := TextFile (py "<p>Goodbye world</p>") true ]>
                         fs_read_only;
              stdout := [ py "[EDIT] en/index.html -> x:y:z" ];
              writes := [ (py "en/index.html", py "<p>Goodbye world</p>") ] |}
           _ _ _ _ _)).
  - vm_compute. reflexivity.
  - vm_compute. reflexivity.
  - vm_compute. reflexivity.
  - discriminate.
  - vm_compute. reflexivity.
Defined.

Lemma mapM_pointwise {A B : Type} (f : A -> option B) (g : A -> B) (l : list A) :
  (forall x, In x l -> f x = Some (g x)) -> mapM f l = Some (map g l).
Proof.
  induction l as [|x l IH]; intros H; simpl; [done|].
  rewrite (H x) by (by left). simpl.
  rewrite IH by (intros y Hy; apply H; by right). done.
Qed.

(** A loop that returns met no target it could not read. *)
Lemma for_targets_returns_readable (check : bool) (targets : dict) :
  List.NoDup (map fst targets) ->
  forall (any_changed any_changed' : bool) (w w' : world),
    for_targets check targets any_changed w = (Returned any_changed', w') ->
    forall path repls,
      In (path, repls) targets -> files w !! path <> Some Unreadable.
Proof.
  induction targets as [|[p r] targets IH];
    intros Hnd ac ac' w w' Hrun path repls Hin; [done|].
  inversion Hnd as [|? ? Hfresh Hnd']; subst.
  rewrite for_targets_cons in Hrun.
  destruct Hin as [Heq|Hin].
  - injection Heq as -> ->.
    turn_cases check path repls ac w; try done; congruence.
  - assert (Hne : p <> path).
    { intros ->. apply Hfresh. apply in_map_iff. by exists (path, repls). }
    turn_cases check p r ac w; try done;
      pose proof (IH Hnd' _ _ _ _ Hrun path repls Hin) as Hrd; simpl in Hrd;
      try done.
    by rewrite lookup_insert_ne in Hrd.
Qed.

(** X17: a check run after an apply run.  When the apply run returned, and
    in every target that was a text file the engine's output holds the
    [old] of none of the target's rules, the check run over the files the
    apply run left returns 0 and reports no edit: the warning for every
    target that was missing, the no-changes line for every other. *)
Theorem check_after_apply_reports_no_edit (table : list (str * list Replacement))
    (fs : gmap str entry) (status : Z) (wa : world) :
  main false table (start fs) = (Returned status, wa) ->
  (forall path repls content writable r,
     In (path, repls) (targets_of table) ->
     fs !! path = Some (TextFile content writable) ->
     In r repls ->
     ~ Occurs (old r) (fst (apply_replacements content repls path))) ->
  main true table (start (files wa))
  = (Returned 0%Z,
     {| files := files wa;
        stdout := map (fun target =>
                         if fs !! fst target is None
                         then warn_line (fst target) else ok_line (fst target))
                    (targets_of table);
        writes := [] |}).
Proof.
  rewrite main_apply. intros Hrun Hclean.
  destruct (for_targets false (targets_of table) false (start fs))
    as [[ac|e] w'] eqn:Ha; [|done].
  assert (Hfiles : files wa = files w') by (injection Hrun as _ <-; by destruct ac).
  rewrite main_check.
  destruct (for_targets_check_reports (targets_of table) false (start (files wa))
              (map (fun target =>
                      if fs !! fst target is None
                      then warn_line (fst target) else ok_line (fst target))
                 (targets_of table))) as [ac2 ->]; [|done].
  apply mapM_pointwise. intros [path repls] Hin. unfold report_of. simpl.
  rewrite Hfiles,
    (for_targets_apply_files (targets_of table) (targets_of_NoDup table)
       false ac (start fs) w' Ha path repls Hin).
  pose proof (for_targets_returns_readable false (targets_of table)
                (targets_of_NoDup table) false ac (start fs) w' Ha path repls Hin)
    as Hrd.
  simpl in *. destruct (fs !! path) as [[content writable|]|] eqn:Hfs; simpl;
    [| done | done].
  pose proof (Hclean path repls content writable) as Hno.
  unfold apply_replacements in *.
  rewrite (for_repl_none_fire repls (fst (for_repl repls content []))); [done|].
  intros r Hr. by apply Hno.
Qed.

Lemma check_after_apply_reports_no_edit_witness :
  main true sample_table
    (start (files (snd (main false sample_table (start fs_stale)))))
  = (Returned 0%Z,
     {| files := fs_updated;
        stdout := [ py "[OK]   en/index.html (no changes)";
                    py "[WARN] Missing: nl/index.html" ];
        writes := [] |}).
Proof.
  refine (check_after_apply_reports_no_edit sample_table fs_stale 0%Z
            (snd (main false sample_table (start fs_stale))) _ _).
  - vm_compute. reflexivity.
  - intros path repls content writable r Hin Hfs Hr.
    apply str_contains_not_Occurs.
    destruct Hin as [Heq|[Heq|[]]]; injection Heq as <- <-.
    + vm_compute in Hfs. injection Hfs as <- _.
      destruct Hr as [<-|[]]. vm_compute. reflexivity.
    + vm_compute in Hfs. discriminate Hfs.
Defined.

(** X18: nothing is raised, and [main] returns 0 in both modes, when every
    path the table names is missing or is a text file that can be read and
    written. *)
Theorem main_returns_when_targets_are_text (check : bool)
    (table : list (str * list Replacement)) (fs : gmap str entry) :
  (forall p, In p (map fst table) ->
     fs !! p = None \/ exists content, fs !! p = Some (TextFile content true)) ->
  fst (main check table (start fs)) = Returned 0%Z.
Proof.
  intros Hgood. rewrite main_unfold.
  destruct (for_targets_returns check (targets_of table) false (start fs))
    as [ac [w' Hrun]].
  - intros p Hp. apply Hgood. by apply targets_of_keys.
  - by rewrite Hrun.
Qed.

Lemma main_returns_when_targets_are_text_witness :
  fst (main false sample_table (start fs_stale)) = Returned 0%Z.
Proof.
  apply (main_returns_when_targets_are_text false sample_table fs_stale).
  intros p [<-|[<-|[]]].
  - right. exists (py "<p>Hello world</p>"). vm_compute. reflexivity.
  - left. vm_compute. reflexivity.
Defined.
